(** * passcheck: a shallow embedding of [password_checker.py]

    The scoring engine of the password checker is embedded function by
    function, in the order of the source file.  Python values are modelled
    as follows.

    - [str] is a list of code points ([char] is the integer that [ord]
      returns), [int] is [Z], a tuple result is a record.
    - The Unicode database behind [str.islower], [str.lower], ... the float
      operations behind [math.log2] and the iteration order of a [set] are
      services of the Python runtime, not code of this repository: they are
      the operations of the classes [Unicode], [FloatOps] and
      [SetIteration].  Everything is proved for every instance; one
      executable instance (ASCII tables, exact arithmetic) is given to
      evaluate the functions on concrete passwords.  The class
      [CaseMapping] adds how [str.lower] replaces character by character,
      for the one statement that compares the length of a password with
      the length of its lowercased form.
    - Indexing a string can raise [IndexError]: functions that index return
      an [option], [None] standing for the escaping exception.
    - [load_common_words] reads the file system, which is passed explicitly
      as a finite map from paths to the lines of the file. *)

From Stdlib Require Import ZArith Lia DecimalString.
From stdpp Require Import gmap strings list sorting.

Local Open Scope Z_scope.

(** ** Python values *)

Abbreviation char := Z.
Abbreviation str := (list char).

Definition len {A} (l : list A) : Z := Z.of_nat (length l).

(** A string literal of the source whose characters are all ASCII. *)
Definition lit (s : string) : str :=
  (λ a, Z.of_N (Ascii.N_of_ascii a)) <$> String.list_ascii_of_string s.

(** U+2013, the dash of the two length suggestions. *)
Definition en_dash : char := 8211.

(** [str(n)] for an integer, as an f-string renders it. *)
Definition str_of_int (n : Z) : str := lit (NilEmpty.string_of_int (Z.to_int n)).

(** [range(a, b)] *)
Definition range (a b : Z) : list Z := seqZ a (b - a).

(** [s[i]]: a negative index counts from the end, an index out of range
    raises [IndexError]. *)
Definition py_index {A} (s : list A) (i : Z) : option A :=
  if 0 <=? i then s !! Z.to_nat i
  else if - len s <=? i then s !! Z.to_nat (len s + i)
  else None.

(** The bound of a slice: negative bounds count from the end, and every
    bound is clipped to the string. *)
Definition slice_bound {A} (s : list A) (k : Z) : Z :=
  if k <? 0 then Z.max 0 (k + len s) else Z.min k (len s).

(** [s[start:stop]] *)
Definition py_slice {A} (s : list A) (start stop : Z) : list A :=
  let lo := slice_bound s start in
  let hi := slice_bound s stop in
  take (Z.to_nat (hi - lo)) (drop (Z.to_nat lo) s).

(** [w in s] for two strings: [w] occurs in [s] at some position. *)
Fixpoint contains (s w : str) : bool :=
  bool_decide (w `prefix_of` s)
  || match s with
     | [] => false
     | _ :: s' => contains s' w
     end.

(** [sep.join(items)] *)
Fixpoint join (sep : str) (items : list str) : str :=
  match items with
  | [] => []
  | [x] => x
  | x :: rest => x ++ sep ++ join sep rest
  end.

(** [l.sort(key=len, reverse=True)]: the sort is stable, so its result is
    the one of any stable sort; insertion from the right is used here.  An
    element is put in front of the first element that is not longer. *)
Fixpoint insert_by_len (x : str) (l : list str) : list str :=
  match l with
  | [] => [x]
  | y :: l' => if len x <? len y then y :: insert_by_len x l' else x :: l
  end.

Definition sort_by_len_desc (l : list str) : list str :=
  foldr insert_by_len [] l.

(** ** The Python runtime *)

(** The character tables of [str]: the methods of a one-character string,
    and [str.lower] on a whole string (its result can be longer than its
    argument, and depends on the context of a character). *)
Class Unicode := {
  islower : char → bool;
  isupper : char → bool;
  isdigit : char → bool;
  isalnum : char → bool;
  isspace : char → bool;
  lower : str → str;
  lower_nil : lower [] = [];
}.

(** The float operations the program uses: the literal [0.0],
    [math.log2] of an [int], [int * float], [float < int] and the format
    [{x:.1f}].  A float that is below an integer is below every larger
    one. *)
Class FloatOps := {
  float : Type;
  float_zero : float;
  log2 : Z → float;
  int_mul : Z → float → float;
  lt_int : float → Z → bool;
  format_1f : float → str;
  lt_int_mono : ∀ x a b, a ≤ b → lt_int x a = true → lt_int x b = true;
}.

(** The order in which a [for] loop or a comprehension visits a set: some
    enumeration of its elements, each once.  Python fixes it by the hashes
    of the strings, which change from one process to the next, and by the
    history of the set, so that two sets that are equal can be visited in
    two orders.  An instance is the order of one evaluation of a function
    of the program, each of which visits one set, once: a statement about
    one evaluation holds for every instance, and a statement that compares
    two evaluations takes one instance for each. *)
Class SetIteration := {
  set_iter : gset str → list str;
  set_iter_perm : ∀ X, set_iter X ≡ₚ elements X;
}.

(** The file system as [open(path, "r")] sees it: the lines of the file at
    a path, as iterating over the file yields them, or no file
    ([FileNotFoundError], the one failure the source handles; a file that
    exists but cannot be read or decoded is outside the model). *)
Abbreviation filesystem := (gmap string (list str)).

(** ** The program *)

Section program.
Context {U : Unicode} {F : FloatOps} {I : SetIteration}.

(** [any(f(c) for c in s)] *)
Definition any {A} (f : A → bool) (s : list A) : bool := existsb f s.

(** [all(f(d) for d in l)] *)
Definition all {A} (f : A → bool) (l : list A) : bool := forallb f l.

(** [s.lstrip()], [s.rstrip()] and [s.strip()] without argument remove
    white space. *)
Fixpoint lstrip (s : str) : str :=
  match s with
  | [] => []
  | c :: s' => if isspace c then lstrip s' else s
  end.

Definition rstrip (s : str) : str := reverse (lstrip (reverse s)).

Definition strip (s : str) : str := lstrip (rstrip s).

(** [s.startswith(prefix)] *)
Definition startswith (s prefix : str) : bool :=
  bool_decide (prefix `prefix_of` s).

Definition load_common_words (fs : filesystem) (path : string) : gset str :=
  match fs !! path with
  | Some f =>
      list_to_set
        ((λ line, lower (strip line))
           <$> filter (λ line, strip line ≠ []
                               ∧ ¬ startswith (lstrip line) (lit "#")) f)
  | None => ∅
  end.

Definition find_dictionary_hits (password : str) (common_words : gset str)
  : list str :=
  let s := lower password in
  let hits :=
    filter (λ w, 4 ≤ len w ∧ contains s w) (set_iter common_words) in
  sort_by_len_desc hits.

Definition estimate_entropy_bits (password : str) : float :=
  let charset := 0 in
  let charset := if any islower password then charset + 26 else charset in
  let charset := if any isupper password then charset + 26 else charset in
  let charset := if any isdigit password then charset + 10 else charset in
  let charset :=
    if any (λ c, negb (isalnum c)) password then charset + 33 else charset in
  if charset =? 0 then float_zero
  else int_mul (len password) (log2 charset).

(** [[ord(chunk[j + 1]) - ord(chunk[j]) for j in range(min_len - 1)]] *)
Definition chunk_diffs (chunk : str) (min_len : Z) : option (list Z) :=
  mapM (λ j, c1 ← py_index chunk (j + 1);
             c0 ← py_index chunk j;
             Some (c1 - c0))
       (range 0 (min_len - 1)).

(** The [for i in ...] loop of [has_simple_sequence], over the indices
    that are left. *)
Fixpoint sequence_loop (s : str) (min_len : Z) (indices : list Z)
  : option bool :=
  match indices with
  | [] => Some false
  | i :: indices' =>
      let chunk := py_slice s i (i + min_len) in
      diffs ← chunk_diffs chunk min_len;
      if all (λ d, d =? 1) diffs || all (λ d, d =? -1) diffs
      then Some true
      else sequence_loop s min_len indices'
  end.

Definition has_simple_sequence (password : str) (min_len : Z) : option bool :=
  let s := lower password in
  sequence_loop s min_len (range 0 (len s - min_len + 1)).

(** The [for i in ...] loop of [has_repeated_run], over the indices that
    are left, with the current value of [count]. *)
Fixpoint run_loop (password : str) (run_len : Z) (indices : list Z)
    (count : Z) : option bool :=
  match indices with
  | [] => Some false
  | i :: indices' =>
      a ← py_index password i;
      b ← py_index password (i - 1);
      if a =? b then
        let count := count + 1 in
        if run_len <=? count then Some true
        else run_loop password run_len indices' count
      else run_loop password run_len indices' 1
  end.

Definition has_repeated_run (password : str) (run_len : Z) : option bool :=
  if run_len <=? 1 then Some false
  else run_loop password run_len (range 1 (len password)) 1.

Definition strength_label (score : Z) : str :=
  if score <? 30 then lit "VERY WEAK"
  else if score <? 50 then lit "WEAK"
  else if score <? 70 then lit "OKAY"
  else lit "STRONG".

(** The loop of [_dedupe_preserve_order] over the items that are left,
    with the current values of [seen] and [out]. *)
Fixpoint dedupe_loop (items : list str) (seen : gset str) (out : list str)
  : list str :=
  match items with
  | [] => out
  | x :: items' =>
      if decide (x ∉ seen)
      then dedupe_loop items' ({[x]} ∪ seen) (out ++ [x])
      else dedupe_loop items' seen out
  end.

Definition _dedupe_preserve_order (items : list str) : list str :=
  dedupe_loop items ∅ [].

(** The tuple that [calculate_score_and_suggestions] returns; the same
    four names are its local variables. *)
Record scoring := Scoring {
  score : Z;
  findings : list str;
  suggestions : list str;
  entropy : float;
}.

(** [findings.append(f)], [suggestions.append(s)], [score += n] *)
Definition findings_append (f : str) (st : scoring) : scoring :=
  Scoring (score st) (findings st ++ [f]) (suggestions st) (entropy st).

Definition suggestions_append (s : str) (st : scoring) : scoring :=
  Scoring (score st) (findings st) (suggestions st ++ [s]) (entropy st).

Definition score_add (n : Z) (st : scoring) : scoring :=
  Scoring (score st + n) (findings st) (suggestions st) (entropy st).

(** The dictionary check, [if hits: ...]. *)
Definition dictionary_check (hits : list str) (st : scoring) : scoring :=
  match hits with
  | [] => st
  | _ :: _ =>
      let st :=
        findings_append
          (lit "Contains common word(s): " ++ join (lit ", ") (take 3 hits)
             ++ lit ".") st in
      let st :=
        suggestions_append
          (lit "Avoid common words/names; use random phrases or a password manager.")
          st in
      score_add (-25) st
  end.

(** 1) Length, after the test for the empty password. *)
Definition length_check (length : Z) (st : scoring) : scoring :=
  if length <? 8 then
    let st := findings_append (lit "Too short (< 8 characters).") st in
    let st :=
      suggestions_append
        (lit "Increase length to at least 12" ++ [en_dash]
           ++ lit "14 characters.") st in
    score_add 5 st
  else if length <? 12 then
    let st :=
      findings_append (lit "Short (8" ++ [en_dash] ++ lit "11 characters).")
        st in
    let st :=
      suggestions_append
        (lit "Increase length to 12" ++ [en_dash] ++ lit "14+ characters.")
        st in
    score_add 20 st
  else if length <? 16 then
    let st :=
      findings_append
        (lit "Good length (12" ++ [en_dash] ++ lit "15 characters).") st in
    score_add 32 st
  else
    let st := findings_append (lit "Great length (16+ characters).") st in
    score_add 40 st.

(** 2) Variety; [sum] adds the four booleans as 0 and 1. *)
Definition variety_check (password : str) (st : scoring) : scoring :=
  let has_lower := any islower password in
  let has_upper := any isupper password in
  let has_digit := any isdigit password in
  let has_symbol := any (λ c, negb (isalnum c)) password in
  let categories :=
    foldr Z.add 0 (Z.b2z <$> [has_lower; has_upper; has_digit; has_symbol]) in
  let st :=
    findings_append
      (lit "Character types used: " ++ str_of_int categories ++ lit "/4.")
      st in
  let st := score_add (categories * 10) st in
  if categories <? 3 then
    suggestions_append (lit "Mix uppercase, lowercase, digits, and symbols.")
      st
  else st.

(** 3) Entropy bonus *)
Definition entropy_check (st : scoring) : scoring :=
  if lt_int (entropy st) 40 then
    let st :=
      findings_append
        (lit "Low estimated entropy (~" ++ format_1f (entropy st)
           ++ lit " bits).") st in
    suggestions_append (lit "Make it longer and less predictable.") st
  else if lt_int (entropy st) 70 then
    let st :=
      findings_append
        (lit "Moderate estimated entropy (~" ++ format_1f (entropy st)
           ++ lit " bits).") st in
    score_add 10 st
  else
    let st :=
      findings_append
        (lit "High estimated entropy (~" ++ format_1f (entropy st)
           ++ lit " bits).") st in
    score_add 20 st.

(** 4) Pattern penalties, given what the two detectors returned. *)
Definition sequence_penalty (detected : bool) (st : scoring) : scoring :=
  if detected then
    let st :=
      findings_append (lit "Contains a simple sequence (e.g., 1234 / abcd).")
        st in
    let st :=
      suggestions_append (lit "Avoid sequences like 1234 or abcd.") st in
    score_add (-15) st
  else st.

Definition repeat_penalty (detected : bool) (st : scoring) : scoring :=
  if detected then
    let st :=
      findings_append
        (lit "Contains repeated characters (e.g., aaaa / 1111).") st in
    let st :=
      suggestions_append (lit "Avoid repeated characters like aaaa.") st in
    score_add (-15) st
  else st.

(** The body of [calculate_score_and_suggestions] from the comment
    "1) Length" to its two [return] statements, given the local variables
    after the dictionary check.  It yields the local variables at the
    [return] that is reached, and the expression returned as the score:
    [0] at the first, the clamped [score] at the second.  The detectors
    are called with their default length 4. *)
Definition scoring_after_dictionary (password : str) (st : scoring)
  : option (Z * scoring) :=
  let length := len password in
  if length =? 0 then
    let st := findings_append (lit "Password is empty.") st in
    let st :=
      suggestions_append
        (lit "Use a password manager to generate a long random password.")
        st in
    Some (0, st)
  else
    let st := length_check length st in
    let st := variety_check password st in
    let st := entropy_check st in
    seq ← has_simple_sequence password 4;
    let st := sequence_penalty seq st in
    rep ← has_repeated_run password 4;
    let st := repeat_penalty rep st in
    Some (Z.max 0 (Z.min (score st) 100), st).

(** The body from its first line: the initial local variables, the
    dictionary check on the words of [common_words.txt], then the rest. *)
Definition scoring_locals (fs : filesystem) (password : str)
  : option (Z * scoring) :=
  let st := Scoring 0 [] [] (estimate_entropy_bits password) in
  let common_words := load_common_words fs "common_words.txt" in
  let hits := find_dictionary_hits password common_words in
  let st := dictionary_check hits st in
  scoring_after_dictionary password st.

(** [return score, findings, _dedupe_preserve_order(suggestions), entropy] *)
Definition calculate_score_and_suggestions (fs : filesystem) (password : str)
  : option scoring :=
  '(returned, st) ← scoring_locals fs password;
  Some (Scoring returned (findings st)
          (_dedupe_preserve_order (suggestions st)) (entropy st)).
End program.

(** ** An executable runtime

    ASCII character tables (they agree with Python on the code points below
    128), floats kept exactly, and sets visited in the order of [elements].
    It serves to evaluate the program on ASCII passwords. *)

Module Reference.
Definition between (lo hi c : Z) : bool := (lo <=? c) && (c <=? hi).

Definition ascii_lower (c : char) : char :=
  if between 65 90 c then c + 32 else c.

#[refine] Definition ascii_tables : Unicode := {|
  islower := between 97 122;
  isupper := between 65 90;
  isdigit := between 48 57;
  isalnum c := between 97 122 c || between 65 90 c || between 48 57 c;
  isspace c := between 9 13 c || between 28 32 c;
  lower s := ascii_lower <$> s;
|}.
Proof. reflexivity. Defined.

(** The value [n * log2 c] is kept as the pair [(n, c)], with [0 ≤ n] and
    [1 ≤ c]: it is below [k] when [c ^ n < 2 ^ k], and its tenths, rounded
    to the nearest, are read off the binary length of [c ^ (20 * n)]. *)
Definition exact_format_1f (x : Z * Z) : str :=
  let tenths := (Z.log2 (x.2 ^ (20 * x.1)) + 1) / 2 in
  str_of_int (tenths / 10) ++ lit "." ++ str_of_int (tenths mod 10).

#[refine] Definition exact_floats : FloatOps := {|
  float := Z * Z;
  float_zero := (0, 2);
  log2 c := (1, c);
  int_mul k x := (k * x.1, x.2);
  lt_int x k := x.2 ^ x.1 <? 2 ^ k;
  format_1f := exact_format_1f;
|}.
Proof.
  intros x a b Hab Hlt. apply Z.ltb_lt in Hlt. apply Z.ltb_lt.
  eapply Z.lt_le_trans; [exact Hlt|].
  destruct (decide (0 ≤ a)).
  - apply Z.pow_le_mono_r; lia.
  - rewrite (Z.pow_neg_r 2 a) by lia. apply Z.pow_nonneg. lia.
Defined.

#[refine] Definition elements_order : SetIteration := {|
  set_iter := elements;
|}.
Proof. reflexivity. Defined.

(** A file system whose only file is the word list, with the given words
    one per line. *)
Definition word_file (words : list string) : filesystem :=
  {[ "common_words.txt"%string := (λ w, lit w ++ [10]) <$> words ]}.

(** The program on this runtime. *)
Definition calculate (fs : filesystem) (password : string) :=
  calculate_score_and_suggestions
    (U := ascii_tables) (F := exact_floats) (I := elements_order)
    fs (lit password).
End Reference.

(** ** The specification's notions, in its own words *)

Section specification.
Context {U : Unicode} {F : FloatOps} {I : SetIteration}.

(** [w] occurs as a substring of [s]. *)
Definition substring (w s : str) : Prop := ∃ pre post, s = pre ++ w ++ post.

(** Some character of the password belongs to the class. *)
Definition class_present (cls : char → bool) (password : str) : Prop :=
  Exists (λ c, cls c) password.

Definition is_symbol (c : char) : bool := negb (isalnum c).

(** The sum of the alphabet sizes of the classes that are present. *)
Definition charset_size (password : str) : Z :=
  (if decide (class_present islower password) then 26 else 0)
  + (if decide (class_present isupper password) then 26 else 0)
  + (if decide (class_present isdigit password) then 10 else 0)
  + (if decide (class_present is_symbol password) then 33 else 0).

(** Each character of the window is the one before it plus [d]. *)
Definition steps_by (d : Z) (window : str) : Prop :=
  ∀ (j : nat) (a b : char),
    window !! j = Some a → window !! S j = Some b → b - a = d.

(** Some contiguous window of [s] of the given length ascends by +1 at
    each step, or descends by 1 at each step. *)
Definition simple_window (window_len : Z) (s : str) : Prop :=
  ∃ pre window post,
    s = pre ++ window ++ post
    ∧ len window = window_len
    ∧ (steps_by 1 window ∨ steps_by (-1) window).

(** The same character at [run_len] consecutive positions, from position
    [start] on. *)
Definition run_at (password : str) (run_len : Z) (start : nat) : Prop :=
  ∃ c : char,
    ∀ j : nat, Z.of_nat j < run_len → password !! (start + j)%nat = Some c.

Definition repeated_run (password : str) (run_len : Z) : Prop :=
  ∃ start : nat, run_at password run_len start.

(** How many of the four classes appear at least once. *)
Definition class_count (password : str) : Z :=
  len (filter (λ cls, class_present cls password)
         [islower; isupper; isdigit; is_symbol]).

(** The clamp into [0, 100]. *)
Definition clamp (x : Z) : Z :=
  if decide (x < 0) then 0 else if decide (100 < x) then 100 else x.

(** The terms of the score. *)
Definition dictionary_points (hits : list str) : Z :=
  if decide (hits = []) then 0 else -25.

Definition length_points (length : Z) : Z :=
  if decide (length < 8) then 5
  else if decide (8 ≤ length < 12) then 20
  else if decide (12 ≤ length < 16) then 32
  else 40.

Definition entropy_points (e : float) : Z :=
  if lt_int e 40 then 0 else if lt_int e 70 then 10 else 20.

Definition detector_points (detected : option bool) : Z :=
  if decide (detected = Some true) then -15 else 0.

Definition score_formula (fs : filesystem) (password : str) : Z :=
  clamp
    (dictionary_points
       (find_dictionary_hits password
          (load_common_words fs "common_words.txt"))
     + length_points (len password)
     + 10 * class_count password
     + entropy_points (estimate_entropy_bits password)
     + detector_points (has_simple_sequence password 4)
     + detector_points (has_repeated_run password 4)).

(** [out] lists its elements in the order in which they first occur in
    [items]: an element that precedes another in [out] occurs in [items]
    at a position before which the other does not occur. *)
Definition in_order_of_first_occurrence (items out : list str) : Prop :=
  ∀ l1 x l2 y,
    out = l1 ++ x :: l2 → y ∈ l2 →
    ∃ j : nat, items !! j = Some x ∧ y ∉ take j items.
End specification.

(** ** Notions used in the proofs *)

Section auxiliary.
(** Longest first: no element is shorter than one that follows it. *)
Definition longest_first : list str → Prop :=
  StronglySorted (λ a b : str, len b ≤ len a).

(** The state of the loop before the iteration for index [i]: the last
    [count] characters read are equal, and no run starts before them. *)
Record run_invariant (password : str) (run_len : Z) (i count : Z)
  : Prop := {
  inv_count : 1 ≤ count < run_len;
  inv_index : count ≤ i ≤ len password;
  inv_equal : ∀ k : nat, i - count ≤ Z.of_nat k < i →
                password !! k = password !! Z.to_nat (i - 1);
  inv_no_run : ∀ start : nat, Z.of_nat start < i - count →
                 ¬ run_at password run_len start;
}.

(** The differences of the neighbours of a window, by recursion on it. *)
Fixpoint adjacent_diffs (w : str) : list Z :=
  match w with
  | a :: (b :: _) as w' => (b - a) :: adjacent_diffs w'
  | _ => []
  end.

(** The window that the loop cuts at index [start]. *)
Definition window_at (s : str) (min_len : Z) (start : nat) : str :=
  take (Z.to_nat min_len) (drop start s).

Definition simple_at (s : str) (min_len : Z) (start : nat) : Prop :=
  Z.of_nat start + min_len ≤ len s
  ∧ (steps_by 1 (window_at s min_len start)
     ∨ steps_by (-1) (window_at s min_len start)).

(** What the loop appends to [out]: the items that are not in [seen] and
    did not occur earlier. *)
Fixpoint fresh (items : list str) (seen : gset str) : list str :=
  match items with
  | [] => []
  | x :: items' =>
      if decide (x ∉ seen) then x :: fresh items' ({[x]} ∪ seen)
      else fresh items' seen
  end.

End auxiliary.

(** ** The callers of the scorer

    [analyze_and_print] and [main] of [password_checker.py], and [main] of
    [passcheck/cli.py].  What they write and ask is kept as the list of
    their calls of [print] and [getpass.getpass], in order; what the user
    types at the prompt is an argument. *)

Inductive event :=
  | Stdout (line : str)
  | Stderr (line : str)
  | Getpass (prompt : str).

(** The text of an event. *)
Definition event_text (ev : event) : str :=
  match ev with
  | Stdout line | Stderr line => line
  | Getpass prompt => prompt
  end.

Section callers.
Context {U : Unicode} {F : FloatOps} {I : SetIteration}.

Definition analyze_and_print (fs : filesystem) (password : str)
  : option (list event) :=
  r ← calculate_score_and_suggestions fs password;
  let '(Scoring score findings suggestions entropy) := r in
  Some ([Stdout ([10] ++ lit "Password analysis");
         Stdout (lit "-----------------");
         Stdout (lit "Score: " ++ str_of_int score ++ lit "/100");
         Stdout (lit "Strength: " ++ strength_label score);
         Stdout (lit "Estimated entropy: " ++ format_1f entropy ++ lit " bits");
         Stdout ([10] ++ lit "Findings:")]
        ++ ((λ f, Stdout (lit "- " ++ f)) <$> findings)
        ++ [Stdout ([10] ++ lit "Suggestions:")]
        ++ match suggestions with
           | [] =>
               [Stdout (lit "- Looks good. Keep using unique passwords per site.")]
           | _ :: _ => (λ s, Stdout (lit "- " ++ s)) <$> suggestions
           end).

(** [main] of [password_checker.py]; [typed] is what [getpass] returns. *)
Definition main (fs : filesystem) (typed : str) : option (list event) :=
  out ← analyze_and_print fs typed;
  Some (Getpass (lit "Enter password: ") :: out).
End callers.

(** [passcheck/cli.py].  Its [main] is embedded from the parsed arguments
    on ([argparse] is not modelled).  The two functions it imports from
    [.core], [json.dumps(payload, indent=2)] and [round(entropy, 2)] are
    parameters. *)
Module Cli.
Section cli.
Context {F : FloatOps}.

(** The namespace that [parse_args] returns. *)
Record namespace := Namespace {
  password : option str;
  json : bool;
  score_only : bool;
  no_input : bool;
}.

(** The dictionary [payload] of the JSON output. *)
Record payload := Payload {
  payload_score : Z;
  payload_strength : str;
  payload_entropy_bits : float;
  payload_findings : list str;
  payload_suggestions : list str;
}.

Variable calculate_score_and_suggestions : str → option scoring.
Variable strength_label : Z → str.
Variable json_dumps : payload → str.
Variable round2 : float → float.

(** The body of [main] from the call of the scorer on. *)
Definition main_scored (args : namespace) (password : str)
  : option (list event * Z) :=
  r ← calculate_score_and_suggestions password;
  let '(Scoring score findings suggestions entropy) := r in
  if score_only args then Some ([Stdout (str_of_int score)], 0)
  else if json args then
    let payload :=
      Payload score (strength_label score) (round2 entropy) findings
        suggestions in
    Some ([Stdout (json_dumps payload)], 0)
  else
    Some ([Stdout ([10] ++ lit "Password analysis");
           Stdout (lit "-----------------");
           Stdout (lit "Score: " ++ str_of_int score ++ lit "/100");
           Stdout (lit "Strength: " ++ strength_label score);
           Stdout (lit "Estimated entropy: " ++ format_1f entropy
                     ++ lit " bits");
           Stdout ([10] ++ lit "Findings:")]
          ++ ((λ f, Stdout (lit "- " ++ f)) <$> findings)
          ++ [Stdout ([10] ++ lit "Suggestions:")]
          ++ match suggestions with
             | [] =>
                 [Stdout (lit "- Looks good. Keep using unique passwords per site.")]
             | _ :: _ => (λ s, Stdout (lit "- " ++ s)) <$> suggestions
             end, 0).

(** [main]: the events and the exit code; [typed] is what [getpass]
    returns when it is called. *)
Definition main (args : namespace) (typed : str) : option (list event * Z) :=
  match password args with
  | Some password => main_scored args password
  | None =>
      if no_input args then
        Some ([Stderr (lit "Error: --no-input was set but no --password was provided.")],
              2)
      else
        '(events, code) ← main_scored args typed;
        Some (Getpass (lit "Enter password: ") :: events, code)
  end.
End cli.
End Cli.

(** The ASCII tables with the ideographs U+4E00 to U+9FFF added: letters
    for [isalnum], and neither lowercase, uppercase nor digits. *)
Module Ideographs.
#[refine] Definition tables : Unicode := {|
  islower := Reference.between 97 122;
  isupper := Reference.between 65 90;
  isdigit := Reference.between 48 57;
  isalnum c :=
    Reference.between 97 122 c || Reference.between 65 90 c
    || Reference.between 48 57 c || Reference.between 19968 40959 c;
  isspace c := Reference.between 9 13 c || Reference.between 28 32 c;
  lower s := Reference.ascii_lower <$> s;
|}.
Proof. reflexivity. Defined.
End Ideographs.

(** The entries that the body of the scorer appends for a password that is
    not empty, in the order of the source, each under the condition of its
    [if]: the lists are written in terms of what the checks found. *)
Section reported.
Context {U : Unicode} {F : FloatOps} {I : SetIteration}.

Definition suggestions_of (hits : list str) (length categories : Z)
    (e : float) (seq rep : bool) : list str :=
  (if decide (hits = []) then []
   else [lit "Avoid common words/names; use random phrases or a password manager."])
  ++ (if decide (length < 8) then
        [lit "Increase length to at least 12" ++ [en_dash]
           ++ lit "14 characters."]
      else if decide (length < 12) then
        [lit "Increase length to 12" ++ [en_dash] ++ lit "14+ characters."]
      else [])
  ++ (if decide (categories < 3) then
        [lit "Mix uppercase, lowercase, digits, and symbols."]
      else [])
  ++ (if lt_int e 40 then [lit "Make it longer and less predictable."] else [])
  ++ (if seq then [lit "Avoid sequences like 1234 or abcd."] else [])
  ++ (if rep then [lit "Avoid repeated characters like aaaa."] else []).

Definition findings_of (hits : list str) (length categories : Z)
    (e : float) (seq rep : bool) : list str :=
  (if decide (hits = []) then []
   else [lit "Contains common word(s): " ++ join (lit ", ") (take 3 hits)
           ++ lit "."])
  ++ [if decide (length < 8) then lit "Too short (< 8 characters)."
      else if decide (length < 12) then
        lit "Short (8" ++ [en_dash] ++ lit "11 characters)."
      else if decide (length < 16) then
        lit "Good length (12" ++ [en_dash] ++ lit "15 characters)."
      else lit "Great length (16+ characters)."]
  ++ [lit "Character types used: " ++ str_of_int categories ++ lit "/4."]
  ++ [if lt_int e 40 then
        lit "Low estimated entropy (~" ++ format_1f e ++ lit " bits)."
      else if lt_int e 70 then
        lit "Moderate estimated entropy (~" ++ format_1f e ++ lit " bits)."
      else lit "High estimated entropy (~" ++ format_1f e ++ lit " bits)."]
  ++ (if seq then [lit "Contains a simple sequence (e.g., 1234 / abcd)."]
      else [])
  ++ (if rep then [lit "Contains repeated characters (e.g., aaaa / 1111)."]
      else []).

(** No check of the scorer has anything to report. *)
Definition all_clear (fs : filesystem) (password : str) : Prop :=
  find_dictionary_hits password (load_common_words fs "common_words.txt") = []
  ∧ 12 ≤ len password
  ∧ 3 ≤ class_count password
  ∧ lt_int (estimate_entropy_bits password) 40 = false
  ∧ has_simple_sequence password 4 = Some false
  ∧ has_repeated_run password 4 = Some false.
End reported.

(** ** More of the runtime *)

(** No two neighbours in the string differ by 1. *)
Definition rigid (b : str) : Prop :=
  ∀ (j : nat) (x y : char),
    b !! j = Some x → b !! S j = Some y → y - x ≠ 1 ∧ y - x ≠ -1.

(** How [str.lower] works: it replaces each character of the string, where
    it stands, by its lowercase mapping, which is one character for every
    character but U+0130, whose mapping is the two characters U+0069 and
    U+0307; the characters around a character only select the mapping of a
    capital sigma.  [lower_blocks s] lists the replacements, one for each
    character of [s]; in none of them two neighbours differ by 1. *)
Class CaseMapping {U : Unicode} := {
  lower_blocks : str → list str;
  lower_concat : ∀ s, lower s = concat (lower_blocks s);
  lower_blocks_length : ∀ s, length (lower_blocks s) = length s;
  lower_blocks_rigid : ∀ s, Forall rigid (lower_blocks s);
}.

(** The ASCII tables with U+0130, the capital I with a dot, whose lowercase
    mapping has two characters. *)
Module DottedI.
Definition lower_char (c : char) : str :=
  if c =? 304 then [105; 775] else [Reference.ascii_lower c].

#[refine] Definition tables : Unicode := {|
  islower := Reference.between 97 122;
  isupper c := Reference.between 65 90 c || (c =? 304);
  isdigit := Reference.between 48 57;
  isalnum c :=
    Reference.between 97 122 c || Reference.between 65 90 c
    || Reference.between 48 57 c || (c =? 304);
  isspace c := Reference.between 9 13 c || Reference.between 28 32 c;
  lower s := concat (lower_char <$> s);
|}.
Proof. reflexivity. Defined.

#[refine] Definition case_mapping : CaseMapping (U := tables) := {|
  lower_blocks s := lower_char <$> s;
|}.
Proof.
  - reflexivity.
  - intros s. apply length_fmap.
  - intros s. apply Forall_fmap, Forall_true. intros c j x y Hx Hy.
    unfold lower_char in Hx, Hy.
    destruct (c =? 304); destruct j as [|[|j]]; simplify_eq/=; split; lia.
Defined.
End DottedI.

(** Sets visited in the reverse of the order of [elements]. *)
Module Reversed.
#[refine] Definition order : SetIteration := {|
  set_iter X := reverse (elements X);
|}.
Proof. intros X. apply reverse_Permutation. Defined.
End Reversed.

Section dictionary_finding.
Context {U : Unicode} {I : SetIteration}.

(** The hits of the dictionary check of the scorer. *)
Definition word_hits (fs : filesystem) (password : str) : list str :=
  find_dictionary_hits password (load_common_words fs "common_words.txt").

(** The finding of the dictionary check for a list of hits. *)
Definition dictionary_finding (hits : list str) : str :=
  lit "Contains common word(s): " ++ join (lit ", ") (take 3 hits) ++ lit ".".
End dictionary_finding.

(** ** Proofs *)

Section label.
(** C9: the label is "VERY WEAK" below 30, "WEAK" from 30 to 49, "OKAY"
    from 50 to 69 and "STRONG" from 70 on, and the six boundary scores get
    the labels the specification lists. *)
Theorem strength_label_tiers (score : Z) :
  (score < 30 → strength_label score = lit "VERY WEAK")
  ∧ (30 ≤ score < 50 → strength_label score = lit "WEAK")
  ∧ (50 ≤ score < 70 → strength_label score = lit "OKAY")
  ∧ (70 ≤ score → strength_label score = lit "STRONG")
  ∧ strength_label 29 = lit "VERY WEAK"
  ∧ strength_label 30 = lit "WEAK"
  ∧ strength_label 49 = lit "WEAK"
  ∧ strength_label 50 = lit "OKAY"
  ∧ strength_label 69 = lit "OKAY"
  ∧ strength_label 70 = lit "STRONG".
Proof.
  unfold strength_label.
  repeat split; try reflexivity; intros Hs;
    repeat (case_match; try lia; try reflexivity);
    rewrite ?Z.ltb_lt, ?Z.ltb_ge in *; lia.
Qed.
End label.

Section entropy.
Context {U : Unicode} {F : FloatOps}.

Lemma any_present (cls : char → bool) (password : str) :
  any cls password = true ↔ class_present cls password.
Proof.
  unfold any, class_present. induction password as [|c s IH]; simpl.
  - split; [discriminate | intros E; inversion E].
  - rewrite Exists_cons, orb_true_iff, IH, Is_true_true. reflexivity.
Qed.

Lemma any_if {A} (cls : char → bool) (password : str) (a b : A) :
  (if any cls password then a else b)
  = if decide (class_present cls password) then a else b.
Proof.
  destruct (any cls password) eqn:E; case_decide as D; try reflexivity.
  - apply any_present in E. contradiction.
  - apply any_present in D. congruence.
Qed.

(** The variable [charset] of the source, after its four updates. *)
Lemma charset_accumulated (password : str) :
  (let charset := 0 in
   let charset := if any islower password then charset + 26 else charset in
   let charset := if any isupper password then charset + 26 else charset in
   let charset := if any isdigit password then charset + 10 else charset in
   if any (λ c, negb (isalnum c)) password then charset + 33 else charset)
  = charset_size password.
Proof.
  unfold charset_size. cbv zeta. fold is_symbol.
  rewrite <- !any_if.
  destruct (any islower password), (any isupper password),
    (any isdigit password), (any is_symbol password); reflexivity.
Qed.

Lemma charset_size_zero (password : str) :
  charset_size password = 0
  ↔ ¬ class_present islower password ∧ ¬ class_present isupper password
    ∧ ¬ class_present isdigit password ∧ ¬ class_present is_symbol password.
Proof.
  unfold charset_size. repeat case_decide; split; try lia; tauto.
Qed.

Lemma charset_size_values (password : str) :
  charset_size password
  ∈ [0; 10; 26; 33; 36; 43; 52; 59; 62; 69; 85; 95].
Proof.
  unfold charset_size. repeat case_decide; simpl; set_solver.
Qed.

(** C5: the estimate is [length × log2(charsetSize)], with the charset
    size the sum of 26, 26, 10 and 33 over the classes that are present,
    and it is exactly [0.0] when no class is present. *)
Theorem estimate_entropy_bits_formula (password : str) :
  (charset_size password ≠ 0 →
     estimate_entropy_bits password
     = int_mul (len password) (log2 (charset_size password)))
  ∧ (charset_size password = 0 → estimate_entropy_bits password = float_zero)
  ∧ (charset_size password = 0
     ↔ ¬ class_present islower password ∧ ¬ class_present isupper password
       ∧ ¬ class_present isdigit password
       ∧ ¬ class_present is_symbol password).
Proof.
  pose proof (charset_accumulated password) as Hc. cbv zeta in Hc.
  unfold estimate_entropy_bits. cbv zeta. rewrite Hc.
  split; [|split].
  - intros Hne. apply Z.eqb_neq in Hne. rewrite Hne. reflexivity.
  - intros ->. reflexivity.
  - apply charset_size_zero.
Qed.
End entropy.

Section dictionary.
Context {U : Unicode} {I : SetIteration}.

Lemma contains_substring (s w : str) :
  contains s w = true ↔ substring w s.
Proof.
  unfold substring. induction s as [|c s IH]; simpl.
  - rewrite orb_false_r, bool_decide_eq_true. split.
    + intros [k Hk]. exists [], k. exact Hk.
    + intros (pre & post & E). symmetry in E.
      apply app_eq_nil in E as [-> E]. apply app_eq_nil in E as [-> ->].
      exists []. reflexivity.
  - rewrite orb_true_iff, bool_decide_eq_true, IH. split.
    + intros [[k Hk] | (pre & post & E)].
      * exists [], k. exact Hk.
      * exists (c :: pre), post. rewrite E. reflexivity.
    + intros (pre & post & E). destruct pre as [|c' pre].
      * left. exists post. exact E.
      * right. exists pre, post. simpl in E. congruence.
Qed.

Lemma insert_by_len_perm (x : str) (l : list str) :
  insert_by_len x l ≡ₚ x :: l.
Proof.
  induction l as [|y l IH]; simpl; [reflexivity|].
  case_match; [|reflexivity].
  rewrite IH. apply Permutation_swap.
Qed.

Lemma sort_by_len_desc_perm (l : list str) : sort_by_len_desc l ≡ₚ l.
Proof.
  unfold sort_by_len_desc. induction l as [|x l IH]; simpl; [reflexivity|].
  rewrite insert_by_len_perm, IH. reflexivity.
Qed.

Lemma insert_by_len_sorted (x : str) (l : list str) :
  longest_first l → longest_first (insert_by_len x l).
Proof.
  unfold longest_first. induction 1 as [|y l Hl IH Hy]; simpl.
  - repeat constructor.
  - case_match eqn:E.
    + apply Z.ltb_lt in E. constructor; [exact IH|].
      rewrite insert_by_len_perm. constructor; [lia | exact Hy].
    + apply Z.ltb_ge in E. constructor; [constructor; assumption|].
      constructor; [exact E|].
      eapply Forall_impl; [exact Hy|]. simpl. intros; lia.
Qed.

Lemma sort_by_len_desc_sorted (l : list str) :
  longest_first (sort_by_len_desc l).
Proof.
  unfold sort_by_len_desc. induction l as [|x l IH]; simpl.
  - constructor.
  - apply insert_by_len_sorted, IH.
Qed.

(** The sort is stable: the words of one length keep their order. *)
Lemma insert_by_len_stable (n : Z) (x : str) (l : list str) :
  longest_first l →
  filter (λ w, len w = n) (insert_by_len x l)
  = filter (λ w, len w = n) (x :: l).
Proof.
  unfold longest_first. induction 1 as [|y l Hl IH Hy]; simpl; [reflexivity|].
  case_match eqn:E; [|reflexivity].
  apply Z.ltb_lt in E.
  rewrite (filter_cons _ y), IH, !(filter_cons _ x), (filter_cons _ y).
  repeat case_decide; try reflexivity. lia.
Qed.

Lemma sort_by_len_desc_stable (n : Z) (l : list str) :
  filter (λ w, len w = n) (sort_by_len_desc l) = filter (λ w, len w = n) l.
Proof.
  induction l as [|x l IH]; [reflexivity|].
  change (sort_by_len_desc (x :: l))
    with (insert_by_len x (sort_by_len_desc l)).
  rewrite insert_by_len_stable by apply sort_by_len_desc_sorted.
  rewrite !(filter_cons _ x), IH. reflexivity.
Qed.

Lemma find_dictionary_hits_perm (password : str) (common_words : gset str) :
  find_dictionary_hits password common_words
  ≡ₚ filter (λ w, 4 ≤ len w ∧ contains (lower password) w)
       (elements common_words).
Proof.
  unfold find_dictionary_hits. cbv zeta.
  rewrite sort_by_len_desc_perm, set_iter_perm. reflexivity.
Qed.

(** C6: the hits are exactly the words of the set that have at least 4
    characters and occur in the lowercased password, each once, and no
    hit is shorter than a hit that follows it. *)
Theorem find_dictionary_hits_exact (password : str) (common_words : gset str) :
  (∀ w, w ∈ find_dictionary_hits password common_words
        ↔ w ∈ common_words ∧ 4 ≤ len w ∧ substring w (lower password))
  ∧ NoDup (find_dictionary_hits password common_words)
  ∧ longest_first (find_dictionary_hits password common_words).
Proof.
  split; [|split].
  - intros w. rewrite find_dictionary_hits_perm, list_elem_of_filter.
    rewrite elem_of_elements, Is_true_true, contains_substring. tauto.
  - rewrite find_dictionary_hits_perm.
    apply NoDup_filter, NoDup_elements.
  - apply sort_by_len_desc_sorted.
Qed.
End dictionary.

Section indexing.
Context {A : Type}.
Implicit Types s : list A.

Lemma py_index_nonneg s (i : Z) : 0 ≤ i → py_index s i = s !! Z.to_nat i.
Proof. intros Hi. unfold py_index. apply Z.leb_le in Hi. rewrite Hi. done. Qed.

Lemma range_cons (a b : Z) : a < b → range a b = a :: range (a + 1) b.
Proof.
  intros Hab. unfold range. rewrite seqZ_cons by lia.
  f_equal. f_equal; lia.
Qed.

Lemma range_nil (a b : Z) : b ≤ a → range a b = [].
Proof. intros Hab. unfold range. apply seqZ_nil. lia. Qed.

Lemma lookup_len_Some s (i : Z) :
  0 ≤ i < len s → ∃ x, s !! Z.to_nat i = Some x.
Proof.
  unfold len. intros Hi. apply lookup_lt_is_Some_2. lia.
Qed.
End indexing.

Section repeated.
Variable password : str.
Variable run_len : Z.
Hypothesis run_len_ge : 2 ≤ run_len.

Lemma run_loop_exit (count : Z) :
  run_invariant password run_len (len password) count → ¬ repeated_run password run_len.
Proof.
  intros [Hc Hi Heq Hno] [start Hrun].
  destruct (decide (Z.of_nat start < len password - count)) as [Hs|Hs].
  - exact (Hno start Hs Hrun).
  - destruct Hrun as [c Hrun].
    specialize (Hrun (Z.to_nat (run_len - 1)) ltac:(lia)).
    apply lookup_lt_Some in Hrun. unfold len in *. lia.
Qed.

Lemma run_loop_correct (n : nat) (i count : Z) :
  i + Z.of_nat n = len password →
  run_invariant password run_len i count →
  ∃ b, run_loop password run_len (range i (len password)) count = Some b
       ∧ (b = true ↔ repeated_run password run_len).
Proof.
  revert i count. induction n as [|n IH]; intros i count Hn Hinv.
  - replace i with (len password) in * by lia.
    rewrite range_nil by lia. exists false. split; [reflexivity|].
    split; [discriminate|]. intros Hr. destruct (run_loop_exit _ Hinv Hr).
  - destruct Hinv as [Hc Hi Heq Hno].
    rewrite range_cons by lia. simpl.
    rewrite !py_index_nonneg by lia.
    destruct (lookup_len_Some password i ltac:(lia)) as [a Ha].
    destruct (lookup_len_Some password (i - 1) ltac:(lia)) as [b Hb].
    rewrite Ha, Hb. simpl.
    destruct (a =? b) eqn:Eab.
    + apply Z.eqb_eq in Eab. subst b.
      destruct (run_len <=? count + 1) eqn:Er.
      * apply Z.leb_le in Er. exists true. split; [reflexivity|].
        split; [|reflexivity]. intros _.
        exists (Z.to_nat (i - count)), a. intros j Hj.
        destruct (decide (Z.of_nat j = count)) as [Hjc|Hjc].
        -- rewrite <- Ha. f_equal. lia.
        -- rewrite Heq by lia. exact Hb.
      * apply Z.leb_gt in Er. apply IH; [lia|].
        split; [lia | lia | | ].
        -- intros k Hk. replace (i + 1 - 1) with i by lia. rewrite Ha.
           destruct (decide (Z.of_nat k = i)) as [Hki|Hki].
           ++ rewrite <- Ha. f_equal. lia.
           ++ rewrite Heq by lia. exact Hb.
        -- intros start Hs. apply Hno. lia.
    + apply Z.eqb_neq in Eab. apply IH; [lia|].
      split; [lia | lia | | ].
      * intros k Hk. f_equal. lia.
      * intros start Hs [c Hrun].
        destruct (decide (Z.of_nat start < i - count)) as [Hlt|Hge].
        -- apply (Hno start Hlt). exists c. exact Hrun.
        -- pose proof (Hrun (Z.to_nat (i - 1 - Z.of_nat start)) ltac:(lia))
             as H1.
           pose proof (Hrun (Z.to_nat (i - Z.of_nat start)) ltac:(lia))
             as H2.
           replace (start + Z.to_nat (i - 1 - Z.of_nat start))%nat
             with (Z.to_nat (i - 1)) in H1 by lia.
           replace (start + Z.to_nat (i - Z.of_nat start))%nat
             with (Z.to_nat i) in H2 by lia.
           congruence.
Qed.

Lemma has_repeated_run_correct :
  ∃ b, has_repeated_run password run_len = Some b
       ∧ (b = true ↔ repeated_run password run_len).
Proof.
  unfold has_repeated_run.
  destruct (run_len <=? 1) eqn:E; [apply Z.leb_le in E; lia|].
  destruct password as [|c s] eqn:Ep.
  - exists false. split; [reflexivity|]. split; [discriminate|].
    intros [start [c Hrun]]. specialize (Hrun 0%nat ltac:(lia)).
    rewrite lookup_nil in Hrun. discriminate.
  - rewrite <- Ep. apply (run_loop_correct (length s)).
    + rewrite Ep. unfold len. simpl. lia.
    + split.
      * lia.
      * rewrite Ep. unfold len. simpl. lia.
      * intros k Hk. f_equal. lia.
      * intros start Hs. lia.
Qed.
End repeated.

(** C8: with a run length of at least 2 the detector returns true exactly
    when some character fills that many consecutive positions of the
    password, and with a run length of at most 1 it returns false for every
    password. *)
Theorem has_repeated_run_spec (password : str) (run_len : Z) :
  (2 ≤ run_len →
     is_Some (has_repeated_run password run_len)
     ∧ (has_repeated_run password run_len = Some true
        ↔ repeated_run password run_len))
  ∧ (run_len ≤ 1 → has_repeated_run password run_len = Some false).
Proof.
  split.
  - intros Hr.
    destruct (has_repeated_run_correct password run_len Hr) as (b & Hb & Hiff).
    rewrite Hb. split; [eexists; reflexivity|].
    rewrite <- Hiff. split; congruence.
  - intros Hr. unfold has_repeated_run.
    apply Z.leb_le in Hr. rewrite Hr. reflexivity.
Qed.

Section sequence.
Context {U : Unicode}.

Lemma lookup_adjacent_diffs (w : str) (j : nat) :
  adjacent_diffs w !! j
  = (b ← w !! S j; a ← w !! j; Some (b - a)).
Proof.
  revert j. induction w as [|a [|b w] IH]; intros j.
  - reflexivity.
  - destruct j; reflexivity.
  - destruct j as [|j]; [reflexivity|].
    change (adjacent_diffs (a :: b :: w) !! S j)
      with (adjacent_diffs (b :: w) !! j).
    rewrite IH. reflexivity.
Qed.

Lemma length_adjacent_diffs (w : str) :
  length (adjacent_diffs w) = Nat.pred (length w).
Proof.
  induction w as [|a [|b w] IH]; [reflexivity..|].
  change (adjacent_diffs (a :: b :: w))
    with ((b - a) :: adjacent_diffs (b :: w)).
  simpl in *. rewrite IH. reflexivity.
Qed.

Lemma chunk_diffs_adjacent (chunk : str) (min_len : Z) :
  len chunk = min_len → chunk_diffs chunk min_len = Some (adjacent_diffs chunk).
Proof.
  intros Hlen. unfold chunk_diffs, range. apply mapM_Some.
  apply Forall2_same_length_lookup. split.
  - rewrite length_seqZ, length_adjacent_diffs. unfold len in Hlen. lia.
  - intros j x d Hx Hd. apply lookup_seqZ in Hx as [-> Hj].
    rewrite lookup_adjacent_diffs in Hd.
    rewrite !py_index_nonneg by lia.
    replace (Z.to_nat (0 + Z.of_nat j + 1)) with (S j) by lia.
    replace (Z.to_nat (0 + Z.of_nat j)) with j by lia.
    exact Hd.
Qed.

Lemma chunk_diffs_nonpositive (chunk : str) (min_len : Z) :
  min_len ≤ 1 → chunk_diffs chunk min_len = Some [].
Proof.
  intros Hm. unfold chunk_diffs. rewrite range_nil by lia. reflexivity.
Qed.

Lemma all_adjacent_diffs (d : Z) (w : str) :
  all (λ x, x =? d) (adjacent_diffs w) = true ↔ steps_by d w.
Proof.
  unfold all, steps_by.
  rewrite <- Is_true_true, forallb_True, Forall_lookup. split.
  - intros Hall j a b Ha Hb.
    specialize (Hall j (b - a)). rewrite lookup_adjacent_diffs, Ha, Hb in Hall.
    specialize (Hall eq_refl). apply Is_true_true, Z.eqb_eq in Hall. exact Hall.
  - intros Hsteps j x Hx. rewrite lookup_adjacent_diffs in Hx.
    destruct (w !! S j) as [b|] eqn:Hb; [|discriminate].
    destruct (w !! j) as [a|] eqn:Ha; [|discriminate].
    simpl in Hx. injection Hx as <-.
    apply Is_true_true, Z.eqb_eq. eauto.
Qed.

Lemma py_slice_window (s : str) (min_len i : Z) :
  0 ≤ min_len → 0 ≤ i → i + min_len ≤ len s →
  py_slice s i (i + min_len) = window_at s min_len (Z.to_nat i)
  ∧ len (py_slice s i (i + min_len)) = min_len.
Proof.
  intros Hm Hi Hlen. unfold py_slice, slice_bound, window_at.
  destruct (i <? 0) eqn:E1; [apply Z.ltb_lt in E1; lia|].
  destruct (i + min_len <? 0) eqn:E2; [apply Z.ltb_lt in E2; lia|].
  rewrite !Z.min_l by lia.
  replace (i + min_len - i) with min_len by lia.
  split; [reflexivity|].
  unfold len in *. rewrite length_take, length_drop. lia.
Qed.

Lemma simple_window_at (s : str) (min_len : Z) :
  0 ≤ min_len →
  simple_window min_len s ↔ ∃ start, simple_at s min_len start.
Proof.
  intros Hm. unfold simple_window, simple_at, window_at. split.
  - intros (pre & w & post & -> & Hw & Hsteps). exists (length pre).
    rewrite drop_app_length. unfold len in *.
    replace (Z.to_nat min_len) with (length w) by lia.
    rewrite take_app_length, !length_app. split; [lia | exact Hsteps].
  - intros (start & Hlen & Hsteps).
    exists (take start s), (take (Z.to_nat min_len) (drop start s)),
      (drop (Z.to_nat min_len) (drop start s)).
    rewrite !take_drop. split; [reflexivity|]. split; [|exact Hsteps].
    unfold len in *. rewrite length_take, length_drop. lia.
Qed.

Lemma sequence_loop_correct (s : str) (min_len : Z) (n : nat) (i : Z) :
  0 ≤ min_len → 0 ≤ i → i + Z.of_nat n = len s - min_len + 1 →
  ∃ b, sequence_loop s min_len (range i (len s - min_len + 1)) = Some b
       ∧ (b = true
          ↔ ∃ start, i ≤ Z.of_nat start ∧ simple_at s min_len start).
Proof.
  intros Hm. revert i. induction n as [|n IH]; intros i Hi Hn.
  - rewrite range_nil by lia. exists false. split; [reflexivity|].
    split; [discriminate|]. intros (start & Hs & Hlen & _). lia.
  - rewrite range_cons by lia. simpl.
    destruct (py_slice_window s min_len i) as [Hchunk Hlen]; [lia..|].
    rewrite (chunk_diffs_adjacent _ _ Hlen). simpl.
    destruct (all (λ d, d =? 1) _ || all (λ d, d =? -1) _) eqn:E.
    + exists true. split; [reflexivity|]. split; [|reflexivity]. intros _.
      exists (Z.to_nat i). split; [lia|]. split; [lia|].
      rewrite <- Hchunk. apply orb_true_iff in E.
      rewrite !all_adjacent_diffs in E. exact E.
    + destruct (IH (i + 1)) as (b & Hb & Hiff); [lia..|].
      exists b. split; [exact Hb|]. rewrite Hiff. split.
      * intros (start & Hs & Hat). exists start. split; [lia | exact Hat].
      * intros (start & Hs & Hat). exists start. split; [|exact Hat].
        destruct (decide (Z.of_nat start = i)) as [Heq|]; [|lia].
        exfalso. destruct Hat as [_ Hsteps].
        replace start with (Z.to_nat i) in Hsteps by lia.
        rewrite <- Hchunk, <- !all_adjacent_diffs, <- orb_true_iff in Hsteps.
        congruence.
Qed.

Lemma has_simple_sequence_correct (password : str) (min_len : Z) :
  0 ≤ min_len →
  ∃ b, has_simple_sequence password min_len = Some b
       ∧ (b = true ↔ simple_window min_len (lower password)).
Proof.
  intros Hm. unfold has_simple_sequence. cbv zeta.
  set (s := lower password). setoid_rewrite (simple_window_at s _ Hm).
  destruct (decide (min_len ≤ len s)) as [Hle|Hgt].
  - destruct (sequence_loop_correct s min_len
                (Z.to_nat (len s - min_len + 1)) 0) as (b & Hb & Hiff);
      [lia..|].
    exists b. split; [exact Hb|]. rewrite Hiff. split.
    + intros (start & _ & Hat). eauto.
    + intros (start & Hat). exists start. split; [lia | exact Hat].
  - rewrite range_nil by lia. exists false. split; [reflexivity|].
    split; [discriminate|]. intros (start & Hlen & _). lia.
Qed.

Lemma has_simple_sequence_short (password : str) (min_len : Z) :
  len (lower password) < min_len →
  has_simple_sequence password min_len = Some false.
Proof.
  intros Hlt. unfold has_simple_sequence. cbv zeta.
  rewrite range_nil by lia. reflexivity.
Qed.

(** With a window length of 0 or less the first iteration of the loop
    finds an empty list of differences, and returns true. *)
Lemma has_simple_sequence_nonpositive (password : str) (min_len : Z) :
  min_len ≤ 0 → has_simple_sequence password min_len = Some true.
Proof.
  intros Hm. unfold has_simple_sequence. cbv zeta.
  rewrite range_cons by (unfold len; lia). simpl.
  rewrite chunk_diffs_nonpositive by lia. reflexivity.
Qed.
End sequence.

Section sequence_lengths.
Context {U : Unicode} {C : CaseMapping}.

Lemma steps_by_app (d : Z) (k k' : str) :
  steps_by d (k ++ k') → steps_by d k ∧ steps_by d k'.
Proof.
  intros H. split; intros j a b Ha Hb.
  - apply (H j a b); apply lookup_app_l_Some; assumption.
  - apply (H (length k + j)%nat a b).
    + rewrite lookup_app_r by lia.
      replace (length k + j - length k)%nat with j by lia. exact Ha.
    + replace (S (length k + j)) with (length k + S j)%nat by lia.
      rewrite lookup_app_r by lia.
      replace (length k + S j - length k)%nat with (S j) by lia. exact Hb.
Qed.

(** A window that steps by 1 holds at most one character of a replacement. *)
Lemma rigid_window (d : Z) (b pre w post : str) :
  d = 1 ∨ d = -1 → rigid b → b = pre ++ w ++ post → steps_by d w →
  (length w ≤ 1)%nat.
Proof.
  intros Hd Hb -> Hw. destruct w as [|x [|y w]]; simpl; try lia.
  exfalso. pose proof (Hw 0%nat x y eq_refl eq_refl) as Hxy.
  destruct (Hb (length pre) x y) as [H1 H2]; [| |lia].
  - rewrite lookup_app_r by lia. rewrite Nat.sub_diag. reflexivity.
  - rewrite lookup_app_r by lia.
    replace (S (length pre) - length pre)%nat with 1%nat by lia. reflexivity.
Qed.

(** So it holds at most as many characters as there are replacements. *)
Lemma window_blocks (d : Z) (blocks : list str) (pre w post : str) :
  d = 1 ∨ d = -1 → Forall rigid blocks →
  concat blocks = pre ++ w ++ post → steps_by d w →
  (length w ≤ length blocks)%nat.
Proof.
  intros Hd Hall. revert pre w post.
  induction Hall as [|b bs Hb Hbs IH]; intros pre w post Heq Hw.
  - simpl in Heq. symmetry in Heq.
    apply app_eq_nil in Heq as [_ Heq]. apply app_eq_nil in Heq as [-> _].
    simpl. lia.
  - simpl in Heq.
    apply app_eq_inv in Heq as [(k & Hk1 & Hk2) | (k & Hk1 & Hk2)].
    + apply app_eq_inv in Hk2 as [(k' & Hw1 & Hw2) | (k' & Hw1 & Hw2)].
      * subst w. apply steps_by_app in Hw as [Hwk Hwk'].
        pose proof (rigid_window d b pre k [] Hd Hb) as H1.
        rewrite app_nil_r in H1. specialize (H1 Hk1 Hwk).
        pose proof (IH [] k' post Hw2 Hwk') as H2.
        rewrite length_app. simpl. lia.
      * subst k. pose proof (rigid_window d b pre w k' Hd Hb Hk1 Hw).
        simpl. lia.
    + pose proof (IH k w post Hk2 Hw). simpl. lia.
Qed.

Lemma simple_window_length (password : str) (min_len : Z) :
  simple_window min_len (lower password) → min_len ≤ len password.
Proof.
  intros (pre & w & post & Heq & Hlen & Hsteps).
  rewrite lower_concat in Heq. unfold len in *.
  rewrite <- Hlen, <- (lower_blocks_length password).
  destruct Hsteps as [Hs | Hs].
  - pose proof (window_blocks 1 _ _ _ _ (or_introl eq_refl)
                  (lower_blocks_rigid password) Heq Hs). lia.
  - pose proof (window_blocks (-1) _ _ _ _ (or_intror eq_refl)
                  (lower_blocks_rigid password) Heq Hs). lia.
Qed.

(** C7, amended: for a window length of at least 0 the detector returns
    true exactly when some window of that length in the lowercased
    password has differences that are all +1 or all -1; for a window
    length of at least 1 it returns false for the empty password and for
    a password that is shorter than the window. *)
Theorem has_simple_sequence_spec (password : str) (min_len : Z) :
  (0 ≤ min_len →
     is_Some (has_simple_sequence password min_len)
     ∧ (has_simple_sequence password min_len = Some true
        ↔ simple_window min_len (lower password)))
  ∧ (1 ≤ min_len → password = [] →
       has_simple_sequence password min_len = Some false)
  ∧ (1 ≤ min_len → len password < min_len →
       has_simple_sequence password min_len = Some false).
Proof.
  split; [|split].
  - intros Hm.
    destruct (has_simple_sequence_correct password min_len Hm)
      as (b & Hb & Hiff).
    rewrite Hb. split; [eexists; reflexivity|].
    rewrite <- Hiff. split; congruence.
  - intros Hm ->. apply has_simple_sequence_short.
    rewrite lower_nil. unfold len. simpl. lia.
  - intros Hm Hshort.
    destruct (has_simple_sequence_correct password min_len)
      as (b & Hb & Hiff); [lia|].
    rewrite Hb. f_equal. destruct b; [|reflexivity].
    pose proof (simple_window_length password min_len
                  (proj1 Hiff eq_refl)). lia.
Qed.
End sequence_lengths.

Section dedupe.
Lemma dedupe_loop_fresh (items : list str) (seen : gset str) (out : list str) :
  dedupe_loop items seen out = out ++ fresh items seen.
Proof.
  revert seen out. induction items as [|x items IH]; intros seen out; simpl.
  - rewrite app_nil_r. reflexivity.
  - case_decide; rewrite IH; [rewrite <- app_assoc|]; reflexivity.
Qed.

Lemma elem_of_fresh (items : list str) (seen : gset str) (x : str) :
  x ∈ fresh items seen ↔ x ∈ items ∧ x ∉ seen.
Proof.
  revert seen. induction items as [|a items IH]; intros seen; simpl.
  - split; [intros Hx | intros [Hx _]]; inversion Hx.
  - case_decide as Ha.
    + rewrite !elem_of_cons, IH, not_elem_of_union, elem_of_singleton.
      split.
      * intros [-> | (? & ? & ?)]; auto.
      * intros [Hx Hs]. destruct (decide (x = a)) as [-> | Hne].
        -- left. reflexivity.
        -- right. destruct Hx as [-> | Hx]; [contradiction | auto].
    + rewrite elem_of_cons, IH. split; [tauto|].
      intros [[-> | ?] ?]; [contradiction | tauto].
Qed.

Lemma NoDup_fresh (items : list str) (seen : gset str) :
  NoDup (fresh items seen).
Proof.
  revert seen. induction items as [|a items IH]; intros seen; simpl.
  - constructor.
  - case_decide; [|apply IH]. constructor; [|apply IH].
    rewrite elem_of_fresh. intros [_ Hn].
    apply Hn, elem_of_union_l, elem_of_singleton. reflexivity.
Qed.

Lemma fresh_first_occurrence (items : list str) (seen : gset str) :
  in_order_of_first_occurrence items (fresh items seen).
Proof.
  unfold in_order_of_first_occurrence. revert seen.
  induction items as [|a items IH]; intros seen l1 x l2 y Hout Hy; simpl in Hout.
  - destruct l1; discriminate.
  - case_decide as Ha.
    + destruct l1 as [|a' l1]; simpl in Hout; injection Hout as <- Hout.
      * exists 0%nat. split; [reflexivity|]. apply not_elem_of_nil.
      * destruct (IH _ _ _ _ _ Hout Hy) as (j & Hj & Hnot).
        exists (S j). split; [exact Hj|]. simpl.
        assert (y ∈ fresh items ({[a]} ∪ seen)) as Hin.
        { rewrite Hout, elem_of_app, elem_of_cons. auto. }
        apply elem_of_fresh in Hin as [_ Hn].
        rewrite not_elem_of_cons. split; [|exact Hnot]. intros ->.
        apply Hn, elem_of_union_l, elem_of_singleton. reflexivity.
    + destruct (IH _ _ _ _ _ Hout Hy) as (j & Hj & Hnot).
      exists (S j). split; [exact Hj|]. simpl.
      assert (y ∈ fresh items seen) as Hin.
      { rewrite Hout, elem_of_app, elem_of_cons. auto. }
      apply elem_of_fresh in Hin as [_ Hn].
      rewrite not_elem_of_cons. split; [|exact Hnot]. intros ->.
      exact (Hn Ha).
Qed.

Lemma dedupe_fresh (items : list str) :
  _dedupe_preserve_order items = fresh items ∅.
Proof. unfold _dedupe_preserve_order. apply dedupe_loop_fresh. Qed.

Lemma dedupe_NoDup (items : list str) : NoDup (_dedupe_preserve_order items).
Proof. rewrite dedupe_fresh. apply NoDup_fresh. Qed.

Lemma dedupe_elem_of (items : list str) (x : str) :
  x ∈ _dedupe_preserve_order items ↔ x ∈ items.
Proof.
  rewrite dedupe_fresh, elem_of_fresh. split; [tauto|].
  intros Hx. split; [exact Hx | apply not_elem_of_empty].
Qed.

Lemma dedupe_first_occurrence (items : list str) :
  in_order_of_first_occurrence items (_dedupe_preserve_order items).
Proof. rewrite dedupe_fresh. apply fresh_first_occurrence. Qed.
End dedupe.

Section scoring.
Context {U : Unicode} {F : FloatOps} {I : SetIteration}.

Lemma detectors_return (password : str) :
  ∃ seq rep,
    has_simple_sequence password 4 = Some seq
    ∧ has_repeated_run password 4 = Some rep.
Proof.
  destruct (has_simple_sequence_correct password 4) as (seq & Hseq & _);
    [lia|].
  destruct (has_repeated_run_correct password 4) as (rep & Hrep & _); [lia|].
  eauto.
Qed.

Lemma clamp_max_min (x : Z) : Z.max 0 (Z.min x 100) = clamp x.
Proof. unfold clamp. repeat case_decide; lia. Qed.

Lemma clamp_bounds (x : Z) : 0 ≤ clamp x ≤ 100.
Proof. unfold clamp. repeat case_decide; lia. Qed.

Lemma categories_class_count (password : str) :
  foldr Z.add 0
    (Z.b2z <$> [any islower password; any isupper password;
                any isdigit password;
                any (λ c, negb (isalnum c)) password])
  = class_count password.
Proof.
  unfold class_count. fold is_symbol.
  rewrite !filter_cons, filter_nil.
  rewrite <- !(any_if _ password).
  destruct (any islower password), (any isupper password),
    (any isdigit password), (any is_symbol password); reflexivity.
Qed.

Lemma class_count_bounds (password : str) : 0 ≤ class_count password ≤ 4.
Proof.
  rewrite <- categories_class_count.
  destruct (any islower password), (any isupper password),
    (any isdigit password), (any (λ c, negb (isalnum c)) password);
    simpl; lia.
Qed.

(** What each step adds to [score]; no step changes [entropy]. *)
Lemma dictionary_check_score (hits : list str) (st : scoring) :
  score (dictionary_check hits st) = score st + dictionary_points hits.
Proof. destruct hits; unfold dictionary_points; simpl; lia. Qed.

Lemma dictionary_check_entropy (hits : list str) (st : scoring) :
  entropy (dictionary_check hits st) = entropy st.
Proof. destruct hits; reflexivity. Qed.

Lemma length_check_score (length : Z) (st : scoring) :
  score (length_check length st) = score st + length_points length.
Proof.
  unfold length_check, length_points.
  repeat (case_match; rewrite ?Z.ltb_lt, ?Z.ltb_ge in *);
    repeat case_decide; simpl; lia.
Qed.

Lemma length_check_entropy (length : Z) (st : scoring) :
  entropy (length_check length st) = entropy st.
Proof. unfold length_check. repeat case_match; reflexivity. Qed.

Lemma variety_check_score (password : str) (st : scoring) :
  score (variety_check password st) = score st + 10 * class_count password.
Proof.
  unfold variety_check. cbv zeta. rewrite categories_class_count.
  case_match; simpl; lia.
Qed.

Lemma variety_check_entropy (password : str) (st : scoring) :
  entropy (variety_check password st) = entropy st.
Proof. unfold variety_check. cbv zeta. case_match; reflexivity. Qed.

Lemma entropy_check_score (st : scoring) :
  score (entropy_check st) = score st + entropy_points (entropy st).
Proof.
  unfold entropy_check, entropy_points. repeat case_match; simpl; lia.
Qed.

Lemma entropy_check_entropy (st : scoring) :
  entropy (entropy_check st) = entropy st.
Proof. unfold entropy_check. repeat case_match; reflexivity. Qed.

(** The three bands of the entropy term are the ones of the comparisons:
    below 40, from 40 and below 70, from 70 ("from [k]" being "not below
    [k]"); they exclude each other. *)
Lemma entropy_points_bands (e : float) :
  (lt_int e 40 = true → entropy_points e = 0)
  ∧ (lt_int e 40 = false → lt_int e 70 = true → entropy_points e = 10)
  ∧ (lt_int e 70 = false → entropy_points e = 20).
Proof.
  unfold entropy_points. split; [|split].
  - intros ->. reflexivity.
  - intros -> ->. reflexivity.
  - intros H70. destruct (lt_int e 40) eqn:H40.
    + rewrite (lt_int_mono e 40 70) in H70 by (lia || exact H40).
      discriminate.
    + rewrite H70. reflexivity.
Qed.

Lemma sequence_penalty_score (detected : bool) (st : scoring) :
  score (sequence_penalty detected st)
  = score st + detector_points (Some detected).
Proof. destruct detected; unfold detector_points; simpl; lia. Qed.

Lemma sequence_penalty_entropy (detected : bool) (st : scoring) :
  entropy (sequence_penalty detected st) = entropy st.
Proof. destruct detected; reflexivity. Qed.

Lemma repeat_penalty_score (detected : bool) (st : scoring) :
  score (repeat_penalty detected st)
  = score st + detector_points (Some detected).
Proof. destruct detected; unfold detector_points; simpl; lia. Qed.

Lemma repeat_penalty_entropy (detected : bool) (st : scoring) :
  entropy (repeat_penalty detected st) = entropy st.
Proof. destruct detected; reflexivity. Qed.

(** The second [return]: it is reached for every non-empty password, and
    returns the clamped value of [score], which is the sum of the terms. *)
Lemma scoring_after_dictionary_nonempty (password : str) (st : scoring) :
  password ≠ [] →
  ∃ st',
    scoring_after_dictionary password st
    = Some (Z.max 0 (Z.min (score st') 100), st')
    ∧ score st' = score st
                  + length_points (len password)
                  + 10 * class_count password
                  + entropy_points (entropy st)
                  + detector_points (has_simple_sequence password 4)
                  + detector_points (has_repeated_run password 4)
    ∧ entropy st' = entropy st.
Proof.
  intros Hne. unfold scoring_after_dictionary. cbv zeta.
  destruct (len password =? 0) eqn:E.
  { apply Z.eqb_eq in E. destruct password; [congruence | discriminate]. }
  destruct (detectors_return password) as (seq & rep & -> & ->). simpl.
  eexists. split; [reflexivity|]. split.
  - rewrite repeat_penalty_score, sequence_penalty_score,
      entropy_check_score, variety_check_score, length_check_score.
    rewrite variety_check_entropy, length_check_entropy. reflexivity.
  - rewrite repeat_penalty_entropy, sequence_penalty_entropy,
      entropy_check_entropy, variety_check_entropy, length_check_entropy.
    reflexivity.
Qed.

(** The first [return]: for the empty password the two lists are the
    ones accumulated so far with one entry appended to each. *)
Lemma scoring_after_dictionary_empty (st : scoring) :
  scoring_after_dictionary [] st
  = Some (0, Scoring (score st)
               (findings st ++ [lit "Password is empty."])
               (suggestions st
                  ++ [lit "Use a password manager to generate a long random password."])
               (entropy st)).
Proof. reflexivity. Qed.

Lemma find_dictionary_hits_empty (common_words : gset str) :
  find_dictionary_hits [] common_words = [].
Proof.
  apply elem_of_nil_inv. intros w.
  rewrite find_dictionary_hits_perm, lower_nil, list_elem_of_filter.
  intros [[Hlen Hin] _]. apply Is_true_true, contains_substring in Hin.
  destruct Hin as (pre & post & E). symmetry in E.
  apply app_eq_nil in E as [_ E]. apply app_eq_nil in E as [-> _].
  unfold len in Hlen. simpl in Hlen. lia.
Qed.

Lemma scoring_locals_nonempty (fs : filesystem) (password : str) :
  password ≠ [] →
  ∃ st,
    scoring_locals fs password = Some (Z.max 0 (Z.min (score st) 100), st)
    ∧ clamp (score st) = score_formula fs password
    ∧ entropy st = estimate_entropy_bits password.
Proof.
  intros Hne. unfold scoring_locals. cbv zeta.
  edestruct scoring_after_dictionary_nonempty as (st & -> & Hs & He);
    [exact Hne|].
  exists st. split; [reflexivity|].
  rewrite Hs, He, dictionary_check_score, dictionary_check_entropy.
  split; reflexivity.
Qed.

Lemma scoring_locals_empty (fs : filesystem) :
  scoring_locals fs []
  = Some (0, Scoring 0 [lit "Password is empty."]
               [lit "Use a password manager to generate a long random password."]
               float_zero).
Proof.
  unfold scoring_locals. cbv zeta.
  rewrite find_dictionary_hits_empty. reflexivity.
Qed.

Lemma calculate_from_locals (fs : filesystem) (password : str)
    (returned : Z) (st : scoring) :
  scoring_locals fs password = Some (returned, st) →
  calculate_score_and_suggestions fs password
  = Some (Scoring returned (findings st)
            (_dedupe_preserve_order (suggestions st)) (entropy st)).
Proof.
  intros Hl. unfold calculate_score_and_suggestions. rewrite Hl. reflexivity.
Qed.

Lemma scoring_locals_return (fs : filesystem) (password : str) :
  ∃ returned st,
    scoring_locals fs password = Some (returned, st)
    ∧ 0 ≤ returned ≤ 100
    ∧ (password ≠ [] → returned = Z.max 0 (Z.min (score st) 100)).
Proof.
  destruct (decide (password = [])) as [-> | Hne].
  - rewrite scoring_locals_empty. do 2 eexists.
    split; [reflexivity|]. split; [lia | congruence].
  - destruct (scoring_locals_nonempty fs password Hne) as (st & -> & _).
    do 2 eexists. split; [reflexivity|]. split; [lia | reflexivity].
Qed.

(** The terms sum to 100 at most: the upper bound of the clamp is never
    the one that applies. *)
Lemma score_formula_upper (fs : filesystem) (password : str) :
  dictionary_points
    (find_dictionary_hits password
       (load_common_words fs "common_words.txt"))
  + length_points (len password)
  + 10 * class_count password
  + entropy_points (estimate_entropy_bits password)
  + detector_points (has_simple_sequence password 4)
  + detector_points (has_repeated_run password 4) ≤ 100.
Proof.
  pose proof (class_count_bounds password).
  unfold dictionary_points, length_points, entropy_points, detector_points.
  repeat case_decide; repeat case_match; lia.
Qed.

(** C1: the function returns for every password, and the score it
    returns is between 0 and 100; for a non-empty password it is the
    running total [score] clamped, whatever that total is. *)
Theorem score_within_bounds (fs : filesystem) (password : str) :
  ∃ returned st r,
    scoring_locals fs password = Some (returned, st)
    ∧ calculate_score_and_suggestions fs password = Some r
    ∧ score r = returned
    ∧ 0 ≤ score r ≤ 100
    ∧ (password ≠ [] → score r = Z.max 0 (Z.min (score st) 100)).
Proof.
  destruct (scoring_locals_return fs password)
    as (returned & st & Hl & Hb & Hc).
  exists returned, st. eexists.
  split; [exact Hl|].
  split; [exact (calculate_from_locals _ _ _ _ Hl)|].
  simpl. auto.
Qed.

(** C2: for a non-empty password the score is the clamp into [0, 100] of
    the dictionary term, the length term, ten times the number of
    character classes present, the entropy term and the two pattern
    penalties. *)
Theorem score_is_clamped_sum (fs : filesystem) (password : str) :
  password ≠ [] →
  score <$> calculate_score_and_suggestions fs password
  = Some (score_formula fs password).
Proof.
  intros Hne.
  destruct (scoring_locals_nonempty fs password Hne) as (st & Hl & Hs & _).
  rewrite (calculate_from_locals _ _ _ _ Hl). simpl.
  rewrite clamp_max_min, Hs. reflexivity.
Qed.

(** C4: for the empty password the function returns score 0, the single
    finding "Password is empty." and the single suggestion to use a
    password manager; the dictionary check has run before and found
    nothing, and the [return] that follows the test keeps whatever the
    two lists held, with these two entries appended. *)
Theorem empty_password_result (fs : filesystem) :
  calculate_score_and_suggestions fs []
  = Some (Scoring 0 [lit "Password is empty."]
            [lit "Use a password manager to generate a long random password."]
            float_zero)
  ∧ contains (lit "Password is empty.") (lit "empty") = true
  ∧ find_dictionary_hits [] (load_common_words fs "common_words.txt") = []
  ∧ ∀ st,
      scoring_after_dictionary [] st
      = Some (0, Scoring (score st)
                   (findings st ++ [lit "Password is empty."])
                   (suggestions st
                      ++ [lit "Use a password manager to generate a long random password."])
                   (entropy st)).
Proof.
  split; [|split; [|split]].
  - rewrite (calculate_from_locals _ _ _ _ (scoring_locals_empty fs)).
    reflexivity.
  - reflexivity.
  - apply find_dictionary_hits_empty.
  - apply scoring_after_dictionary_empty.
Qed.

(** C10: the suggestions returned hold no string twice, hold exactly the
    suggestions accumulated and list them in the order of their first
    occurrence; the findings returned are the accumulated list itself. *)
Theorem suggestions_deduplicated (fs : filesystem) (password : str) :
  ∃ returned st r,
    scoring_locals fs password = Some (returned, st)
    ∧ calculate_score_and_suggestions fs password = Some r
    ∧ findings r = findings st
    ∧ NoDup (suggestions r)
    ∧ (∀ x, x ∈ suggestions r ↔ x ∈ suggestions st)
    ∧ in_order_of_first_occurrence (suggestions st) (suggestions r).
Proof.
  destruct (scoring_locals_return fs password) as (returned & st & Hl & _).
  exists returned, st. eexists.
  split; [exact Hl|].
  split; [exact (calculate_from_locals _ _ _ _ Hl)|]. simpl.
  split; [reflexivity|].
  split; [apply dedupe_NoDup|].
  split; [apply dedupe_elem_of | apply dedupe_first_occurrence].
Qed.

Lemma load_common_words_file (fs1 fs2 : filesystem) (path : string) :
  fs1 !! path = fs2 !! path →
  load_common_words fs1 path = load_common_words fs2 path.
Proof. intros Heq. unfold load_common_words. rewrite Heq. reflexivity. Qed.

Lemma load_common_words_missing (fs : filesystem) (path : string) :
  fs !! path = None → load_common_words fs path = ∅.
Proof. intros Heq. unfold load_common_words. rewrite Heq. reflexivity. Qed.
End scoring.

(** ** The program on concrete passwords

    Evaluations in the runtime of [Reference]: the examples of the
    specification and of the test suite, and the claims at concrete
    inputs. *)

Section concrete.
#[local] Existing Instance Reference.ascii_tables.
#[local] Existing Instance Reference.exact_floats.
#[local] Existing Instance Reference.elements_order.

Import Reference.

Example abcd1234_result :
  calculate ∅ "Abcd1234!!"
  = Some (Scoring 55
            [lit "Short (8" ++ [en_dash] ++ lit "11 characters).";
             lit "Character types used: 4/4.";
             lit "Moderate estimated entropy (~65.7 bits).";
             lit "Contains a simple sequence (e.g., 1234 / abcd)."]
            [lit "Increase length to 12" ++ [en_dash] ++ lit "14+ characters.";
             lit "Avoid sequences like 1234 or abcd."]
            (10, 95)).
Proof. vm_compute. reflexivity. Qed.

Example sequence_lowers_score :
  score <$> calculate ∅ "Abcd1234!!" = Some 55
  ∧ score <$> calculate ∅ "Axcd1294!!" = Some 70.
Proof. split; vm_compute; reflexivity. Qed.

Example repeat_lowers_score :
  score <$> calculate ∅ "AAAA1111!!!!" = Some 67
  ∧ score <$> calculate ∅ "AAAB1112!!!?" = Some 82.
Proof. split; vm_compute; reflexivity. Qed.

Example dictionary_hit_password :
  find_dictionary_hits (lit "Password1234!")
    (list_to_set [lit "password"; lit "admin"; lit "welcome"])
  = [lit "password"].
Proof. vm_compute. reflexivity. Qed.

(** Substitutions of letters are not undone before matching. *)
Example dictionary_hit_leetspeak :
  find_dictionary_hits (lit "P@ssw0rd123!")
    (list_to_set [lit "password"; lit "admin"; lit "welcome"])
  = [].
Proof. vm_compute. reflexivity. Qed.

Example load_common_words_lines :
  load_common_words
    (word_file ["  PassWord  "; "# comment"; ""; "   "; "pass"; "pass"])
    "common_words.txt"
  = {[ lit "password"; lit "pass" ]}.
Proof. vm_compute. reflexivity. Qed.

Example simple_sequence_examples :
  has_simple_sequence (lit "abcd1234") 4 = Some true
  ∧ has_simple_sequence (lit "axcd1294") 4 = Some false
  ∧ has_simple_sequence (lit "xDCBA") 4 = Some true.
Proof. repeat split; vm_compute; reflexivity. Qed.

Example repeated_run_examples :
  has_repeated_run (lit "AAAA1111!!!!") 4 = Some true
  ∧ has_repeated_run (lit "AAAB1112!!!?") 4 = Some false.
Proof. split; vm_compute; reflexivity. Qed.

(** A running total of -40 (a hit, 7 characters, one class, low entropy,
    a sequence and a run) is returned as 0. *)
Example running_total_negative :
  scoring_locals (word_file ["abcd"]) (lit "abcdddd")
  = Some (0, Scoring (-40)
               [lit "Contains common word(s): abcd.";
                lit "Too short (< 8 characters).";
                lit "Character types used: 1/4.";
                lit "Low estimated entropy (~32.9 bits).";
                lit "Contains a simple sequence (e.g., 1234 / abcd).";
                lit "Contains repeated characters (e.g., aaaa / 1111)."]
               [lit "Avoid common words/names; use random phrases or a password manager.";
                lit "Increase length to at least 12" ++ [en_dash]
                  ++ lit "14 characters.";
                lit "Mix uppercase, lowercase, digits, and symbols.";
                lit "Make it longer and less predictable.";
                lit "Avoid sequences like 1234 or abcd.";
                lit "Avoid repeated characters like aaaa."]
               (7, 26)).
Proof. vm_compute. reflexivity. Qed.

(** Lowercasing by the ASCII table keeps the length, so that a password
    shorter than the window is never flagged. *)
Lemma ascii_lower_length (password : str) :
  len (lower password) = len password.
Proof. unfold len. simpl. rewrite length_fmap. reflexivity. Qed.

Lemma short_password_not_flagged (password : str) (min_len : Z) :
  len password < min_len →
  has_simple_sequence password min_len = Some false.
Proof.
  intros Hlt. apply has_simple_sequence_short.
  rewrite ascii_lower_length. exact Hlt.
Qed.

(** C1 at a password whose running total is negative. *)
Lemma score_within_bounds_witness :
  ∃ st r,
    scoring_locals (word_file ["abcd"]) (lit "abcdddd") = Some (0, st)
    ∧ score st = -40
    ∧ calculate (word_file ["abcd"]) "abcdddd" = Some r
    ∧ score r = 0.
Proof.
  destruct (score_within_bounds (word_file ["abcd"]) (lit "abcdddd"))
    as (returned & st & r & Hl & Hc & Hr & Hb & Hclamp).
  exists st, r.
  assert (returned = 0 ∧ score st = -40) as [-> Hst].
  { vm_compute in Hl. injection Hl as <- <-. split; reflexivity. }
  split; [exact Hl|]. split; [exact Hst|]. split; [exact Hc | exact Hr].
Defined.

(** C2 at the password "Abcd1234!!": 20 + 40 + 10 - 15. *)
Lemma score_is_clamped_sum_witness :
  lit "Abcd1234!!" ≠ []
  ∧ score <$> calculate ∅ "Abcd1234!!"
    = Some (score_formula ∅ (lit "Abcd1234!!"))
  ∧ score_formula ∅ (lit "Abcd1234!!") = 55.
Proof.
  assert (lit "Abcd1234!!" ≠ []) as Hne by discriminate.
  split; [exact Hne|]. split.
  - exact (score_is_clamped_sum ∅ (lit "Abcd1234!!") Hne).
  - vm_compute. reflexivity.
Defined.

(** C5 at the password "Ab1!", where the four classes are present, and at
    the empty password. *)
Lemma estimate_entropy_bits_formula_witness :
  charset_size (lit "Ab1!") = 95
  ∧ estimate_entropy_bits (lit "Ab1!") = int_mul 4 (log2 95)
  ∧ charset_size [] = 0
  ∧ estimate_entropy_bits [] = float_zero.
Proof.
  assert (charset_size (lit "Ab1!") = 95) as Hc by (vm_compute; reflexivity).
  assert (charset_size [] = 0) as H0 by (vm_compute; reflexivity).
  split; [exact Hc|]. split; [|split; [exact H0|]].
  - destruct (estimate_entropy_bits_formula (lit "Ab1!")) as [Hf _].
    rewrite Hf by (rewrite Hc; discriminate). rewrite Hc. reflexivity.
  - destruct (estimate_entropy_bits_formula []) as (_ & Hz & _).
    exact (Hz H0).
Defined.

(** C7 as stated fails: with a window length of 0 the empty password is
    flagged, and with a negative window length, for which there is no
    window, it is flagged too. *)
Lemma simple_sequence_empty_password :
  has_simple_sequence [] 0 = Some true
  ∧ has_simple_sequence [] (-1) = Some true
  ∧ ¬ simple_window (-1) (lower []).
Proof.
  split; [vm_compute; reflexivity|]. split; [vm_compute; reflexivity|].
  intros (pre & w & post & _ & Hlen & _). unfold len in Hlen. lia.
Qed.

(** C7, amended, at the window length 4, with the tables in which the
    lowercase of U+0130 has two characters: the password of "g", "h" and
    U+0130 has 3 characters and a lowercased form of 4. *)
Lemma has_simple_sequence_spec_witness :
  has_simple_sequence (U := DottedI.tables) (lit "xyAbCd9") 4 = Some true
  ∧ simple_window 4 (lower (Unicode := DottedI.tables) (lit "xyAbCd9"))
  ∧ has_simple_sequence (U := DottedI.tables) [] 4 = Some false
  ∧ lower (Unicode := DottedI.tables) [103; 104; 304] = [103; 104; 105; 775]
  ∧ has_simple_sequence (U := DottedI.tables) [103; 104; 304] 4 = Some false.
Proof.
  assert (has_simple_sequence (U := DottedI.tables) (lit "xyAbCd9") 4
          = Some true) as Hs by (vm_compute; reflexivity).
  destruct (has_simple_sequence_spec (C := DottedI.case_mapping)
              (lit "xyAbCd9") 4) as (Hiff & _).
  destruct (has_simple_sequence_spec (C := DottedI.case_mapping) [] 4)
    as (_ & Hempty & _).
  destruct (has_simple_sequence_spec (C := DottedI.case_mapping)
              [103; 104; 304] 4) as (_ & _ & Hshort).
  split; [exact Hs|]. split; [|split; [|split]].
  - apply (proj2 (Hiff ltac:(lia))), Hs.
  - apply Hempty; [lia | reflexivity].
  - vm_compute. reflexivity.
  - apply Hshort; [lia | vm_compute; reflexivity].
Defined.

(** C8 at the run lengths 4 and 1. *)
Lemma has_repeated_run_spec_witness :
  has_repeated_run (lit "AAAA1111!!!!") 4 = Some true
  ∧ repeated_run (lit "AAAA1111!!!!") 4
  ∧ has_repeated_run (lit "AAAA1111!!!!") 1 = Some false.
Proof.
  assert (has_repeated_run (lit "AAAA1111!!!!") 4 = Some true) as Hs
    by (vm_compute; reflexivity).
  destruct (has_repeated_run_spec (lit "AAAA1111!!!!") 4) as (Hiff & _).
  destruct (has_repeated_run_spec (lit "AAAA1111!!!!") 1) as (_ & Hone).
  split; [exact Hs|]. split.
  - apply (proj2 (Hiff ltac:(lia))), Hs.
  - apply Hone. lia.
Defined.

(** C9 at one score of each tier. *)
Lemma strength_label_tiers_witness :
  strength_label (-40) = lit "VERY WEAK"
  ∧ strength_label 42 = lit "WEAK"
  ∧ strength_label 55 = lit "OKAY"
  ∧ strength_label 100 = lit "STRONG".
Proof.
  destruct (strength_label_tiers (-40)) as (H1 & _).
  destruct (strength_label_tiers 42) as (_ & H2 & _).
  destruct (strength_label_tiers 55) as (_ & _ & H3 & _).
  destruct (strength_label_tiers 100) as (_ & _ & _ & H4 & _).
  split; [apply H1; lia|]. split; [apply H2; lia|].
  split; [apply H3; lia | apply H4; lia].
Defined.
End concrete.

(** ** Further properties of the code *)

Section word_list.
Context {U : Unicode} {F : FloatOps} {I : SetIteration}.

Lemma lstrip_head (s : str) (c : char) (t : str) :
  lstrip s = c :: t → isspace c = false.
Proof.
  induction s as [|a s IH]; simpl; [discriminate|].
  destruct (isspace a) eqn:E; [exact IH|].
  intros [= <- <-]. exact E.
Qed.

Lemma lstrip_app (a b : str) : lstrip a ≠ [] → lstrip (a ++ b) = lstrip a ++ b.
Proof.
  induction a as [|c a IH]; simpl; [congruence|].
  destruct (isspace c); [exact IH | reflexivity].
Qed.

Lemma lstrip_suffix (s : str) : lstrip s `suffix_of` s.
Proof.
  induction s as [|c s IH]; simpl; [done|].
  destruct (isspace c); [|done]. by apply suffix_cons_r.
Qed.

(** What [rstrip] cuts off is a suffix. *)
Lemma rstrip_prefix (s : str) : rstrip s `prefix_of` s.
Proof.
  unfold rstrip. destruct (lstrip_suffix (reverse s)) as [k Hk].
  exists (reverse k). apply (f_equal reverse) in Hk.
  rewrite reverse_involutive, reverse_app in Hk. exact Hk.
Qed.

Lemma rstrip_last (s : str) (c : char) :
  last (rstrip s) = Some c → isspace c = false.
Proof.
  unfold rstrip. rewrite last_reverse.
  destruct (lstrip (reverse s)) as [|a t] eqn:E; [discriminate|].
  intros [= <-]. exact (lstrip_head _ _ _ E).
Qed.

Lemma strip_last (s : str) (c : char) :
  last (strip s) = Some c → isspace c = false.
Proof.
  unfold strip. intros Hlast.
  destruct (lstrip_suffix (rstrip s)) as [k Hk].
  apply (rstrip_last s). rewrite Hk.
  destruct (lstrip (rstrip s)) as [|a t]; [discriminate|].
  rewrite last_app. rewrite Hlast. reflexivity.
Qed.

(** A line that is not blank starts, after [lstrip], with the string that
    [strip] leaves. *)
Lemma lstrip_strip (s : str) : strip s ≠ [] → strip s `prefix_of` lstrip s.
Proof.
  intros Hne. destruct (rstrip_prefix s) as [k Hk].
  exists k. rewrite Hk at 1. apply lstrip_app. exact Hne.
Qed.

Lemma elem_of_load_common_words (fs : filesystem) (path : string) (w : str) :
  w ∈ load_common_words fs path
  ↔ ∃ f line,
      fs !! path = Some f ∧ line ∈ f
      ∧ strip line ≠ [] ∧ ¬ startswith (lstrip line) (lit "#")
      ∧ w = lower (strip line).
Proof.
  unfold load_common_words. destruct (fs !! path) as [f|].
  - rewrite elem_of_list_to_set, list_elem_of_fmap.
    setoid_rewrite list_elem_of_filter. split.
    + intros (line & -> & [Hb Hc] & Hin). exists f, line. auto.
    + intros (f' & line & [= <-] & Hin & Hb & Hc & ->). exists line. auto.
  - split; [intros Hw; destruct (not_elem_of_empty _ Hw)|].
    intros (f & line & Hf & _). discriminate.
Qed.

(** X1: every word that is loaded is the lowercasing of a line with its
    white space stripped: a string that is not empty, that neither starts
    nor ends with white space, and that does not start with [#]. *)
Theorem load_common_words_trimmed (fs : filesystem) (path : string) (w : str) :
  w ∈ load_common_words fs path →
  ∃ t c1 cn,
    w = lower t ∧ head t = Some c1 ∧ last t = Some cn
    ∧ isspace c1 = false ∧ c1 ≠ 35 ∧ isspace cn = false.
Proof.
  intros Hw. apply elem_of_load_common_words in Hw
    as (f & line & _ & _ & Hb & Hc & ->).
  destruct (strip line) as [|c1 t] eqn:Et; [congruence|].
  destruct (last (c1 :: t)) as [cn|] eqn:El;
    [|apply last_None in El; discriminate].
  exists (c1 :: t), c1, cn. split; [reflexivity|]. split; [reflexivity|].
  split; [exact El|].
  assert (isspace cn = false) as Hn by (apply (strip_last line); congruence).
  assert (isspace c1 = false) as H1.
  { unfold strip in Et. exact (lstrip_head _ _ _ Et). }
  split; [exact H1|]. split; [|exact Hn].
  intros ->. apply Hc. unfold startswith. apply bool_decide_pack.
  destruct (lstrip_strip line) as [k Hk]; [congruence|].
  rewrite Hk, Et. exists (t ++ k). reflexivity.
Qed.

(** X2: the words of a file are the words of its first lines together with
    the words of the lines that follow: neither the order of the lines nor
    a line that occurs again changes the set. *)
Theorem load_common_words_app (fs : filesystem) (path : string)
    (f1 f2 : list str) :
  load_common_words (<[path := f1 ++ f2]> fs) path
  = load_common_words (<[path := f1]> fs) path
    ∪ load_common_words (<[path := f2]> fs) path.
Proof.
  unfold load_common_words. rewrite !lookup_insert_eq.
  rewrite filter_app, fmap_app, list_to_set_app_L. reflexivity.
Qed.

Lemma load_common_words_blank (fs : filesystem) (path : string) (f : list str) :
  fs !! path = Some f →
  Forall (λ line, strip line = [] ∨ startswith (lstrip line) (lit "#")) f →
  load_common_words fs path = ∅.
Proof.
  intros Hf Hall. apply set_eq. intros w.
  rewrite elem_of_load_common_words. split.
  - intros (f' & line & Hf' & Hin & Hb & Hc & _).
    assert (f' = f) as -> by congruence.
    rewrite Forall_forall in Hall. destruct (Hall line Hin); tauto.
  - intros Hw. destruct (not_elem_of_empty _ Hw).
Qed.

(** X3: a word file that holds only blank lines and comments, lines whose
    first character after white space is [#], gives the result of a
    missing file. *)
Theorem blank_word_file_as_missing (fs : filesystem) (f : list str)
    (password : str) :
  fs !! "common_words.txt"%string = Some f →
  Forall (λ line, strip line = [] ∨ startswith (lstrip line) (lit "#")) f →
  calculate_score_and_suggestions fs password
  = calculate_score_and_suggestions (delete "common_words.txt"%string fs)
      password.
Proof.
  intros Hf Hall.
  unfold calculate_score_and_suggestions, scoring_locals. cbv zeta.
  rewrite (load_common_words_blank fs _ f Hf Hall).
  rewrite (load_common_words_missing (delete _ fs)) by apply lookup_delete_eq.
  reflexivity.
Qed.
End word_list.

Section hits.
Context {U : Unicode} {I : SetIteration}.

Lemma elem_of_find_dictionary_hits (password : str) (common_words : gset str)
    (w : str) :
  w ∈ find_dictionary_hits password common_words
  ↔ w ∈ common_words ∧ 4 ≤ len w ∧ substring w (lower password).
Proof.
  rewrite find_dictionary_hits_perm, list_elem_of_filter.
  rewrite elem_of_elements, Is_true_true, contains_substring. tauto.
Qed.

Lemma substring_len (w s : str) : substring w s → len w ≤ len s.
Proof.
  intros (pre & post & ->). unfold len. rewrite !length_app. lia.
Qed.

(** X4: a hit has at least 4 characters and at most as many as the
    lowercased password, so that a password whose lowercased form has fewer
    than 4 characters has no hit, whatever the word set. *)
Theorem find_dictionary_hits_lengths (password : str) (common_words : gset str) :
  (∀ w, w ∈ find_dictionary_hits password common_words →
        4 ≤ len w ≤ len (lower password))
  ∧ (len (lower password) < 4 →
     find_dictionary_hits password common_words = []).
Proof.
  assert (∀ w, w ∈ find_dictionary_hits password common_words →
               4 ≤ len w ≤ len (lower password)) as Hlen.
  { intros w Hw. apply elem_of_find_dictionary_hits in Hw as (_ & H4 & Hsub).
    apply substring_len in Hsub. lia. }
  split; [exact Hlen|].
  intros Hshort. apply elem_of_nil_inv. intros w Hw.
  specialize (Hlen w Hw). lia.
Qed.

(** X5: the sort is by length only and stable: the hits of one length come
    in the order in which the loop over the set visits them. *)
Theorem find_dictionary_hits_ties (password : str) (common_words : gset str)
    (n : Z) :
  filter (λ w, len w = n) (find_dictionary_hits password common_words)
  = filter (λ w, len w = n ∧ 4 ≤ len w ∧ contains (lower password) w)
      (set_iter common_words).
Proof.
  unfold find_dictionary_hits. cbv zeta.
  rewrite sort_by_len_desc_stable, list_filter_filter. reflexivity.
Qed.

(** X6: the finding names [hits[:3]]: each of these words is at least as
    long as every word of the set that occurs in the password and is not
    among them. *)
Theorem find_dictionary_hits_top3 (password : str) (common_words : gset str)
    (a b : str) :
  a ∈ take 3 (find_dictionary_hits password common_words) →
  b ∈ common_words → 4 ≤ len b → substring b (lower password) →
  b ∉ take 3 (find_dictionary_hits password common_words) →
  len b ≤ len a.
Proof.
  intros Ha Hb H4 Hsub Hnot.
  assert (b ∈ find_dictionary_hits password common_words) as Hin
    by (apply elem_of_find_dictionary_hits; auto).
  pose proof (sort_by_len_desc_sorted
                (filter (λ w, 4 ≤ len w ∧ contains (lower password) w)
                   (set_iter common_words))) as Hsorted.
  change (longest_first (find_dictionary_hits password common_words))
    in Hsorted.
  unfold longest_first in Hsorted.
  rewrite <- (take_drop 3 (find_dictionary_hits password common_words))
    in Hsorted, Hin.
  apply elem_of_app in Hin as [Hin | Hin]; [contradiction|].
  exact (StronglySorted_app_1_elem_of _ _ _ _ _ Hsorted Ha Hin).
Qed.
End hits.

Section entropy_more.
Context {U : Unicode} {F : FloatOps}.

Lemma estimate_entropy_bits_charset (password : str) :
  estimate_entropy_bits password
  = if charset_size password =? 0 then float_zero
    else int_mul (len password) (log2 (charset_size password)).
Proof.
  pose proof (charset_accumulated password) as Hc. cbv zeta in Hc.
  unfold estimate_entropy_bits. cbv zeta. rewrite Hc. reflexivity.
Qed.

Lemma class_present_perm (cls : char → bool) (p q : str) :
  p ≡ₚ q → class_present cls p ↔ class_present cls q.
Proof.
  intros Hpq. unfold class_present. rewrite !Exists_exists.
  setoid_rewrite Hpq. reflexivity.
Qed.

Lemma charset_size_perm (p q : str) : p ≡ₚ q → charset_size p = charset_size q.
Proof.
  intros Hpq. unfold charset_size.
  rewrite (decide_ext _ _ _ _ (class_present_perm islower p q Hpq)).
  rewrite (decide_ext _ _ _ _ (class_present_perm isupper p q Hpq)).
  rewrite (decide_ext _ _ _ _ (class_present_perm isdigit p q Hpq)).
  rewrite (decide_ext _ _ _ _ (class_present_perm is_symbol p q Hpq)).
  reflexivity.
Qed.

(** X7: the estimate does not depend on the order of the characters. *)
Theorem estimate_entropy_bits_perm (p q : str) :
  p ≡ₚ q → estimate_entropy_bits p = estimate_entropy_bits q.
Proof.
  intros Hpq. rewrite !estimate_entropy_bits_charset.
  rewrite (charset_size_perm p q Hpq). unfold len.
  rewrite (Permutation_length Hpq). reflexivity.
Qed.

(** X8: [math.log2] is called on a character set size from 10 to 95 and
    for a password that is not empty, or not at all: the logarithm of 0
    is never taken. *)
Theorem estimate_entropy_bits_log2_domain (password : str) :
  (charset_size password = 0 ∧ estimate_entropy_bits password = float_zero)
  ∨ (10 ≤ charset_size password ≤ 95 ∧ password ≠ []
     ∧ estimate_entropy_bits password
       = int_mul (len password) (log2 (charset_size password))).
Proof.
  rewrite estimate_entropy_bits_charset.
  destruct (charset_size password =? 0) eqn:E.
  - left. apply Z.eqb_eq in E. auto.
  - right. apply Z.eqb_neq in E.
    split; [|split; [|reflexivity]].
    + pose proof (charset_size_values password) as Hv.
      repeat (apply elem_of_cons in Hv as [Hv | Hv]; [lia|]).
      inversion Hv.
    + intros ->. apply E. reflexivity.
Qed.

(** X9: a password of letters without case, characters that are
    alphanumeric and neither lowercase, uppercase nor digits, has no class
    present: its estimate is [0.0] however long it is. *)
Theorem estimate_entropy_bits_caseless (password : str) :
  Forall (λ c, isalnum c = true ∧ islower c = false ∧ isupper c = false
               ∧ isdigit c = false) password →
  estimate_entropy_bits password = float_zero ∧ class_count password = 0.
Proof.
  intros Hall.
  assert (∀ cls : char → bool,
            Forall (λ c, cls c = false) password →
            ¬ class_present cls password) as Hnone.
  { intros cls Hcls Hex. unfold class_present in Hex.
    apply Exists_exists in Hex as (c & Hin & Hc).
    rewrite Forall_forall in Hcls. rewrite (Hcls c Hin) in Hc. exact Hc. }
  assert (¬ class_present islower password) as H1
    by (apply Hnone; eapply Forall_impl; [exact Hall|]; simpl; tauto).
  assert (¬ class_present isupper password) as H2
    by (apply Hnone; eapply Forall_impl; [exact Hall|]; simpl; tauto).
  assert (¬ class_present isdigit password) as H3
    by (apply Hnone; eapply Forall_impl; [exact Hall|]; simpl; tauto).
  assert (¬ class_present is_symbol password) as H4.
  { apply Hnone. eapply Forall_impl; [exact Hall|]. simpl.
    intros c (Hc & _). unfold is_symbol. rewrite Hc. reflexivity. }
  split.
  - rewrite estimate_entropy_bits_charset.
    rewrite (proj2 (charset_size_zero password)) by auto. reflexivity.
  - unfold class_count. rewrite !filter_cons, filter_nil.
    rewrite !decide_False by assumption. reflexivity.
Qed.
End entropy_more.

Section detectors_more.
Context {U : Unicode}.

(** X10: the sequence detector returns for every password and every
    integer window length, no index is ever out of range; with a window
    length of 0 or less it returns true, also for the empty password. *)
Theorem has_simple_sequence_returns (password : str) (min_len : Z) :
  is_Some (has_simple_sequence password min_len)
  ∧ (min_len ≤ 0 → has_simple_sequence password min_len = Some true).
Proof.
  split.
  - destruct (decide (0 ≤ min_len)) as [Hm | Hm].
    + destruct (has_simple_sequence_correct password min_len Hm)
        as (b & -> & _). eexists; reflexivity.
    + rewrite has_simple_sequence_nonpositive by lia. eexists; reflexivity.
  - apply has_simple_sequence_nonpositive.
Qed.

Lemma steps_by_take (d : Z) (n : nat) (w : str) :
  steps_by d w → steps_by d (take n w).
Proof.
  intros Hw j a b Ha Hb. apply lookup_take_Some in Ha as [Ha _].
  apply lookup_take_Some in Hb as [Hb _]. exact (Hw j a b Ha Hb).
Qed.

Lemma simple_window_shorter (m m' : Z) (s : str) :
  0 ≤ m' ≤ m → simple_window m s → simple_window m' s.
Proof.
  intros Hm (pre & w & post & -> & Hlen & Hsteps).
  exists pre, (take (Z.to_nat m') w), (drop (Z.to_nat m') w ++ post).
  split; [|split].
  - rewrite (app_assoc (take _ w)), take_drop. reflexivity.
  - unfold len in *. rewrite length_take. lia.
  - destruct Hsteps; [left | right]; by apply steps_by_take.
Qed.

(** X11: a password that is flagged for a window length is flagged for
    every shorter one: a sequence of [min_len] characters holds one of each
    smaller length. *)
Theorem has_simple_sequence_shorter (password : str) (min_len min_len' : Z) :
  0 ≤ min_len' ≤ min_len →
  has_simple_sequence password min_len = Some true →
  has_simple_sequence password min_len' = Some true.
Proof.
  intros Hm Hflag.
  destruct (has_simple_sequence_correct password min_len)
    as (b & Hb & Hiff); [lia|].
  destruct (has_simple_sequence_correct password min_len')
    as (b' & Hb' & Hiff'); [lia|].
  rewrite Hb'. f_equal. apply Hiff'.
  apply (simple_window_shorter min_len); [exact Hm|].
  apply Hiff. congruence.
Qed.

Lemma has_repeated_run_true (password : str) (run_len : Z) :
  has_repeated_run password run_len = Some true
  ↔ 2 ≤ run_len ∧ repeated_run password run_len.
Proof.
  destruct (decide (2 ≤ run_len)) as [Hr | Hr].
  - destruct (has_repeated_run_correct password run_len Hr)
      as (b & -> & Hiff).
    rewrite <- Hiff. split; [intros [= ->]; auto | intros [_ ->]; reflexivity].
  - unfold has_repeated_run.
    destruct (run_len <=? 1) eqn:E; [|apply Z.leb_gt in E; lia].
    split; [discriminate | intros [? _]; lia].
Qed.

Lemma has_repeated_run_total (password : str) (run_len : Z) :
  ∃ b, has_repeated_run password run_len = Some b.
Proof.
  destruct (decide (2 ≤ run_len)) as [Hr | Hr].
  - destruct (has_repeated_run_correct password run_len Hr) as (b & -> & _).
    eauto.
  - unfold has_repeated_run.
    destruct (run_len <=? 1) eqn:E; [eauto | apply Z.leb_gt in E; lia].
Qed.

(** X12: a password that is flagged for a run length is flagged for every
    run length from 2 up to it. *)
Theorem has_repeated_run_shorter (password : str) (run_len run_len' : Z) :
  2 ≤ run_len' ≤ run_len →
  has_repeated_run password run_len = Some true →
  has_repeated_run password run_len' = Some true.
Proof.
  intros Hr Hflag. apply has_repeated_run_true in Hflag as [_ [start [c Hrun]]].
  apply has_repeated_run_true. split; [lia|].
  exists start, c. intros j Hj. apply Hrun. lia.
Qed.

(** X13: characters added before or after a password never hide a run:
    a flagged password stays flagged inside any longer one. *)
Theorem has_repeated_run_extend (pre password post : str) (run_len : Z) :
  has_repeated_run password run_len = Some true →
  has_repeated_run (pre ++ password ++ post) run_len = Some true.
Proof.
  intros Hflag. apply has_repeated_run_true in Hflag as [Hr [start [c Hrun]]].
  apply has_repeated_run_true. split; [exact Hr|].
  exists (length pre + start)%nat, c. intros j Hj.
  rewrite <- Nat.add_assoc, lookup_app_r by lia.
  replace (length pre + (start + j) - length pre)%nat with (start + j)%nat
    by lia.
  apply lookup_app_l_Some, Hrun, Hj.
Qed.

(** X14: the run detector compares characters for equality only.
    Replacing every character of the password through a function of single
    characters never removes a run, and through an injective function it
    changes nothing. *)
Theorem has_repeated_run_relabel (f : char → char) (password : str)
    (run_len : Z) :
  (has_repeated_run password run_len = Some true →
   has_repeated_run (f <$> password) run_len = Some true)
  ∧ (Inj (=) (=) f →
     has_repeated_run (f <$> password) run_len
     = has_repeated_run password run_len).
Proof.
  assert (has_repeated_run password run_len = Some true →
          has_repeated_run (f <$> password) run_len = Some true) as Hmap.
  { intros Hflag.
    apply has_repeated_run_true in Hflag as [Hr [start [c Hrun]]].
    apply has_repeated_run_true. split; [exact Hr|].
    exists start, (f c). intros j Hj.
    rewrite list_lookup_fmap, (Hrun j Hj). reflexivity. }
  split; [exact Hmap|]. intros Hinj.
  destruct (has_repeated_run_total password run_len) as [b Hb].
  destruct (has_repeated_run_total (f <$> password) run_len) as [b' Hb'].
  rewrite Hb, Hb'. f_equal.
  destruct b, b'; try reflexivity.
  - rewrite (Hmap Hb) in Hb'. congruence.
  - apply has_repeated_run_true in Hb' as [Hr [start [c' Hrun]]].
    assert (has_repeated_run password run_len = Some true) as Ht;
      [|congruence].
    apply has_repeated_run_true. split; [exact Hr|].
    pose proof (Hrun 0%nat ltac:(lia)) as H0.
    rewrite list_lookup_fmap in H0.
    destruct (password !! (start + 0)%nat) as [c|] eqn:Ec; [|discriminate].
    injection H0 as <-. exists start, c. intros j Hj.
    specialize (Hrun j Hj). rewrite list_lookup_fmap in Hrun.
    destruct (password !! (start + j)%nat) as [cj|]; [|discriminate].
    injection Hrun as Hrun. apply Hinj in Hrun. congruence.
Qed.

(** X15: the run detector returns for every password and every integer
    run length, no index is ever out of range; it returns false for a
    password shorter than the run length, the empty one included. *)
Theorem has_repeated_run_returns (password : str) (run_len : Z) :
  is_Some (has_repeated_run password run_len)
  ∧ (len password < run_len →
     has_repeated_run password run_len = Some false).
Proof.
  destruct (has_repeated_run_total password run_len) as [b Hb].
  split; [rewrite Hb; eexists; reflexivity|].
  intros Hshort. rewrite Hb. f_equal. destruct b; [|reflexivity].
  apply has_repeated_run_true in Hb as [Hr [start [c Hrun]]].
  specialize (Hrun (Z.to_nat (run_len - 1)) ltac:(lia)).
  apply lookup_lt_Some in Hrun. unfold len in Hshort. lia.
Qed.
End detectors_more.

Section dedupe_more.

(** Equations between unions of sets, by membership. *)
Ltac union_eq :=
  apply set_eq; intros ?;
  rewrite ?elem_of_union, ?elem_of_singleton, ?elem_of_empty;
  intuition (subst; auto).

Lemma fresh_union (items : list str) (S T : gset str) :
  fresh items (S ∪ T) = filter (λ x, x ∉ S) (fresh items T).
Proof.
  revert T. induction items as [|a items IH]; intros T; [reflexivity|].
  simpl. destruct (decide (a ∉ T)) as [HT | HT].
  - rewrite filter_cons. destruct (decide (a ∉ S)) as [HS | HS].
    + rewrite decide_True by (rewrite not_elem_of_union; auto).
      f_equal. rewrite <- IH. f_equal. union_eq.
    + rewrite decide_False by (rewrite not_elem_of_union; tauto).
      rewrite <- IH. f_equal. apply dec_stable in HS. union_eq.
  - rewrite decide_False by (rewrite not_elem_of_union; tauto). apply IH.
Qed.

Lemma fresh_app (l1 l2 : list str) (seen : gset str) :
  fresh (l1 ++ l2) seen
  = fresh l1 seen ++ fresh l2 (list_to_set l1 ∪ seen).
Proof.
  revert seen. induction l1 as [|a l1 IH]; intros seen; simpl.
  - rewrite union_empty_l_L. reflexivity.
  - destruct (decide (a ∉ seen)) as [Ha | Ha]; rewrite IH; simpl.
    + do 3 f_equal. union_eq.
    + do 2 f_equal. apply dec_stable in Ha. union_eq.
Qed.

Lemma fresh_NoDup_id (items : list str) (seen : gset str) :
  NoDup items → (∀ x, x ∈ items → x ∉ seen) → fresh items seen = items.
Proof.
  intros Hnd. revert seen. induction Hnd as [|a items Ha Hnd IH];
    intros seen Hseen; [reflexivity|]. simpl.
  rewrite decide_True by (apply Hseen; left).
  f_equal. apply IH. intros x Hx.
  rewrite not_elem_of_union, elem_of_singleton. split.
  - intros ->. contradiction.
  - apply Hseen. by right.
Qed.

(** X16: removing duplicates a second time changes nothing, and the lists
    that come back unchanged are exactly the lists without duplicates. *)
Theorem dedupe_idempotent (items : list str) :
  _dedupe_preserve_order (_dedupe_preserve_order items)
  = _dedupe_preserve_order items
  ∧ (_dedupe_preserve_order items = items ↔ NoDup items).
Proof.
  assert (∀ l : list str, NoDup l → _dedupe_preserve_order l = l) as Hid.
  { intros l Hl. rewrite dedupe_fresh. apply fresh_NoDup_id; [exact Hl|].
    intros x _. apply not_elem_of_empty. }
  split.
  - apply Hid, dedupe_NoDup.
  - split; [|apply Hid]. intros <-. apply dedupe_NoDup.
Qed.

(** X17: the result for two lists in a row is the result for the first,
    followed by the result for the second without the elements of the
    first. *)
Theorem dedupe_app (l1 l2 : list str) :
  _dedupe_preserve_order (l1 ++ l2)
  = _dedupe_preserve_order l1
    ++ filter (λ x, x ∉ l1) (_dedupe_preserve_order l2).
Proof.
  rewrite !dedupe_fresh, fresh_app. f_equal.
  rewrite fresh_union. apply list_filter_iff.
  intros x. rewrite elem_of_list_to_set. reflexivity.
Qed.
End dedupe_more.

(** Two strings that differ within their first 12 characters. *)
Ltac differ H :=
  apply (f_equal (take 12)) in H; vm_compute in H; discriminate H.

Ltac differ_prefix H :=
  let k := fresh "k" in destruct H as [k H]; differ H.

Section scorer_more.
Context {U : Unicode} {F : FloatOps} {I : SetIteration}.

(** What each step appends to the two lists. *)
Ltac step_lists :=
  repeat (case_match; rewrite ?Z.ltb_lt, ?Z.ltb_ge in * );
  repeat case_decide; try lia; try congruence;
  cbn [suggestions findings findings_append suggestions_append score_add];
  rewrite ?app_nil_r, <- ?app_assoc; reflexivity.

Lemma dictionary_check_suggestions (hits : list str) (st : scoring) :
  suggestions (dictionary_check hits st)
  = suggestions st
    ++ (if decide (hits = []) then []
        else [lit "Avoid common words/names; use random phrases or a password manager."]).
Proof. unfold dictionary_check. step_lists. Qed.

Lemma dictionary_check_findings (hits : list str) (st : scoring) :
  findings (dictionary_check hits st)
  = findings st
    ++ (if decide (hits = []) then []
        else [lit "Contains common word(s): "
                ++ join (lit ", ") (take 3 hits) ++ lit "."]).
Proof. unfold dictionary_check. step_lists. Qed.

Lemma length_check_suggestions (length : Z) (st : scoring) :
  suggestions (length_check length st)
  = suggestions st
    ++ (if decide (length < 8) then
          [lit "Increase length to at least 12" ++ [en_dash]
             ++ lit "14 characters."]
        else if decide (length < 12) then
          [lit "Increase length to 12" ++ [en_dash] ++ lit "14+ characters."]
        else []).
Proof. unfold length_check. step_lists. Qed.

Lemma length_check_findings (length : Z) (st : scoring) :
  findings (length_check length st)
  = findings st
    ++ [if decide (length < 8) then lit "Too short (< 8 characters)."
        else if decide (length < 12) then
          lit "Short (8" ++ [en_dash] ++ lit "11 characters)."
        else if decide (length < 16) then
          lit "Good length (12" ++ [en_dash] ++ lit "15 characters)."
        else lit "Great length (16+ characters)."].
Proof. unfold length_check. step_lists. Qed.

Lemma variety_check_suggestions (password : str) (st : scoring) :
  suggestions (variety_check password st)
  = suggestions st
    ++ (if decide (class_count password < 3) then
          [lit "Mix uppercase, lowercase, digits, and symbols."]
        else []).
Proof.
  unfold variety_check. cbv zeta. rewrite categories_class_count. step_lists.
Qed.

Lemma variety_check_findings (password : str) (st : scoring) :
  findings (variety_check password st)
  = findings st
    ++ [lit "Character types used: " ++ str_of_int (class_count password)
          ++ lit "/4."].
Proof.
  unfold variety_check. cbv zeta. rewrite categories_class_count. step_lists.
Qed.

Lemma entropy_check_suggestions (st : scoring) :
  suggestions (entropy_check st)
  = suggestions st
    ++ (if lt_int (entropy st) 40 then
          [lit "Make it longer and less predictable."]
        else []).
Proof. unfold entropy_check. step_lists. Qed.

Lemma entropy_check_findings (st : scoring) :
  findings (entropy_check st)
  = findings st
    ++ [if lt_int (entropy st) 40 then
          lit "Low estimated entropy (~" ++ format_1f (entropy st)
            ++ lit " bits)."
        else if lt_int (entropy st) 70 then
          lit "Moderate estimated entropy (~" ++ format_1f (entropy st)
            ++ lit " bits)."
        else
          lit "High estimated entropy (~" ++ format_1f (entropy st)
            ++ lit " bits)."].
Proof. unfold entropy_check. step_lists. Qed.

Lemma sequence_penalty_suggestions (detected : bool) (st : scoring) :
  suggestions (sequence_penalty detected st)
  = suggestions st
    ++ (if detected then [lit "Avoid sequences like 1234 or abcd."] else []).
Proof. unfold sequence_penalty. step_lists. Qed.

Lemma sequence_penalty_findings (detected : bool) (st : scoring) :
  findings (sequence_penalty detected st)
  = findings st
    ++ (if detected then
          [lit "Contains a simple sequence (e.g., 1234 / abcd)."]
        else []).
Proof. unfold sequence_penalty. step_lists. Qed.

Lemma repeat_penalty_suggestions (detected : bool) (st : scoring) :
  suggestions (repeat_penalty detected st)
  = suggestions st
    ++ (if detected then [lit "Avoid repeated characters like aaaa."] else []).
Proof. unfold repeat_penalty. step_lists. Qed.

Lemma repeat_penalty_findings (detected : bool) (st : scoring) :
  findings (repeat_penalty detected st)
  = findings st
    ++ (if detected then
          [lit "Contains repeated characters (e.g., aaaa / 1111)."]
        else []).
Proof. unfold repeat_penalty. step_lists. Qed.

(** The local variables at the second [return], in terms of what the
    checks found. *)
Lemma scoring_locals_lists (fs : filesystem) (password : str) (seq rep : bool) :
  password ≠ [] →
  has_simple_sequence password 4 = Some seq →
  has_repeated_run password 4 = Some rep →
  ∃ st,
    scoring_locals fs password = Some (Z.max 0 (Z.min (score st) 100), st)
    ∧ clamp (score st) = score_formula fs password
    ∧ entropy st = estimate_entropy_bits password
    ∧ suggestions st
      = suggestions_of
          (find_dictionary_hits password
             (load_common_words fs "common_words.txt"))
          (len password) (class_count password)
          (estimate_entropy_bits password) seq rep
    ∧ findings st
      = findings_of
          (find_dictionary_hits password
             (load_common_words fs "common_words.txt"))
          (len password) (class_count password)
          (estimate_entropy_bits password) seq rep.
Proof.
  intros Hne Hseq Hrep.
  destruct (scoring_locals_nonempty fs password Hne) as (st & Hl & Hs & He).
  exists st. split; [exact Hl|]. split; [exact Hs|]. split; [exact He|].
  unfold scoring_locals, scoring_after_dictionary in Hl. cbv zeta in Hl.
  destruct (len password =? 0) eqn:E.
  { apply Z.eqb_eq in E. destruct password; [congruence | discriminate]. }
  rewrite Hseq, Hrep in Hl. cbn [mbind option_bind] in Hl.
  injection Hl as _ Hst. rewrite <- Hst.
  unfold suggestions_of, findings_of.
  rewrite repeat_penalty_suggestions, sequence_penalty_suggestions,
    entropy_check_suggestions, variety_check_suggestions,
    length_check_suggestions, dictionary_check_suggestions.
  rewrite repeat_penalty_findings, sequence_penalty_findings,
    entropy_check_findings, variety_check_findings,
    length_check_findings, dictionary_check_findings.
  rewrite variety_check_entropy, length_check_entropy,
    dictionary_check_entropy.
  cbn [suggestions findings entropy]. rewrite <- !app_assoc.
  split; reflexivity.
Qed.
Lemma suggestions_of_NoDup (hits : list str) (length categories : Z)
    (e : float) (seq rep : bool) :
  NoDup (suggestions_of hits length categories e seq rep).
Proof.
  apply (sublist_NoDup _
    [lit "Avoid common words/names; use random phrases or a password manager.";
     lit "Increase length to at least 12" ++ [en_dash] ++ lit "14 characters.";
     lit "Increase length to 12" ++ [en_dash] ++ lit "14+ characters.";
     lit "Mix uppercase, lowercase, digits, and symbols.";
     lit "Make it longer and less predictable.";
     lit "Avoid sequences like 1234 or abcd.";
     lit "Avoid repeated characters like aaaa."]).
  - apply (bool_decide_unpack _). vm_compute. constructor.
  - unfold suggestions_of.
    repeat case_decide; destruct (lt_int e 40), seq, rep; cbn [app];
      repeat first [apply sublist_nil | apply sublist_skip | apply sublist_cons].
Qed.

Lemma dedupe_NoDup_id (items : list str) :
  NoDup items → _dedupe_preserve_order items = items.
Proof.
  intros Hnd. rewrite dedupe_fresh. apply fresh_NoDup_id; [exact Hnd|].
  intros x _. apply not_elem_of_empty.
Qed.

(** The result for a password that is not empty, in terms of what the
    checks found. *)
Lemma calculate_nonempty (fs : filesystem) (password : str) :
  password ≠ [] →
  ∃ seq rep,
    has_simple_sequence password 4 = Some seq
    ∧ has_repeated_run password 4 = Some rep
    ∧ calculate_score_and_suggestions fs password
      = Some (Scoring (score_formula fs password)
                (findings_of
                   (find_dictionary_hits password
                      (load_common_words fs "common_words.txt"))
                   (len password) (class_count password)
                   (estimate_entropy_bits password) seq rep)
                (suggestions_of
                   (find_dictionary_hits password
                      (load_common_words fs "common_words.txt"))
                   (len password) (class_count password)
                   (estimate_entropy_bits password) seq rep)
                (estimate_entropy_bits password)).
Proof.
  intros Hne. destruct (detectors_return password) as (seq & rep & Hseq & Hrep).
  exists seq, rep. split; [exact Hseq|]. split; [exact Hrep|].
  destruct (scoring_locals_lists fs password seq rep Hne Hseq Hrep)
    as (st & Hl & Hs & He & Hsug & Hfind).
  rewrite (calculate_from_locals _ _ _ _ Hl).
  rewrite clamp_max_min, Hs, He, Hsug, Hfind.
  rewrite dedupe_NoDup_id by apply suggestions_of_NoDup. reflexivity.
Qed.

Lemma calculate_empty (fs : filesystem) :
  calculate_score_and_suggestions fs []
  = Some (Scoring 0 [lit "Password is empty."]
            [lit "Use a password manager to generate a long random password."]
            float_zero).
Proof.
  rewrite (calculate_from_locals _ _ _ _ (scoring_locals_empty fs)).
  reflexivity.
Qed.

(** X18: the suggestions that the body accumulates are distinct, for every
    password: [_dedupe_preserve_order] returns them as they are, and no
    suggestion is ever dropped from the result. *)
Theorem accumulated_suggestions_distinct (fs : filesystem) (password : str) :
  ∃ returned st r,
    scoring_locals fs password = Some (returned, st)
    ∧ calculate_score_and_suggestions fs password = Some r
    ∧ NoDup (suggestions st)
    ∧ suggestions r = suggestions st.
Proof.
  assert (∃ returned st, scoring_locals fs password = Some (returned, st)
                         ∧ NoDup (suggestions st)) as (returned & st & Hl & Hnd).
  { destruct (decide (password = [])) as [-> | Hne].
    - rewrite scoring_locals_empty. do 2 eexists. split; [reflexivity|].
      apply NoDup_singleton.
    - destruct (detectors_return password) as (seq & rep & Hseq & Hrep).
      destruct (scoring_locals_lists fs password seq rep Hne Hseq Hrep)
        as (st & Hl & _ & _ & Hsug & _).
      do 2 eexists. split; [exact Hl|]. rewrite Hsug.
      apply suggestions_of_NoDup. }
  exists returned, st. eexists. split; [exact Hl|].
  split; [exact (calculate_from_locals _ _ _ _ Hl)|].
  split; [exact Hnd|]. apply dedupe_NoDup_id, Hnd.
Qed.

Lemma score_formula_length (fs : filesystem) (password : str) :
  score_formula fs password ≤ length_points (len password) + 60.
Proof.
  pose proof (class_count_bounds password).
  unfold score_formula, clamp, dictionary_points, length_points,
    entropy_points, detector_points.
  repeat case_decide; repeat case_match; lia.
Qed.

(** X19: a password of fewer than 8 characters scores at most 65 and is
    never labelled "STRONG"; one of fewer than 12 characters scores at most
    80. *)
Theorem short_password_score (fs : filesystem) (password : str) :
  ∃ r,
    calculate_score_and_suggestions fs password = Some r
    ∧ (len password < 8 →
       score r ≤ 65 ∧ strength_label (score r) ≠ lit "STRONG")
    ∧ (len password < 12 → score r ≤ 80).
Proof.
  assert (∃ r, calculate_score_and_suggestions fs password = Some r
               ∧ score r ≤ length_points (len password) + 60)
    as (r & Hr & Hle).
  { destruct (decide (password = [])) as [-> | Hne].
    - rewrite calculate_empty. eexists. split; [reflexivity|].
      simpl. unfold length_points. repeat case_decide; lia.
    - destruct (calculate_nonempty fs password Hne) as (seq & rep & _ & _ & ->).
      eexists. split; [reflexivity|]. apply score_formula_length. }
  exists r. split; [exact Hr|]. unfold length_points in Hle. split.
  - intros H8. rewrite decide_True in Hle by exact H8.
    split; [lia|]. unfold strength_label.
    repeat (case_match; rewrite ?Z.ltb_lt, ?Z.ltb_ge in * );
      try lia; discriminate.
  - intros H12. repeat case_decide; lia.
Qed.

Lemma clamp_mono (x y : Z) : x ≤ y → clamp x ≤ clamp y.
Proof. unfold clamp. repeat case_decide; lia. Qed.

(** X20: words added to the word list never raise a score: when the word
    set of one file system is included in the word set of another, the
    score under the second is at most the score under the first. *)
Theorem more_words_lower_score (fs1 fs2 : filesystem) (password : str) :
  load_common_words fs1 "common_words.txt"
  ⊆ load_common_words fs2 "common_words.txt" →
  ∃ r1 r2,
    calculate_score_and_suggestions fs1 password = Some r1
    ∧ calculate_score_and_suggestions fs2 password = Some r2
    ∧ score r2 ≤ score r1.
Proof.
  intros Hsub. destruct (decide (password = [])) as [-> | Hne].
  - rewrite !calculate_empty. do 2 eexists.
    split; [reflexivity|]. split; [reflexivity|]. reflexivity.
  - destruct (calculate_nonempty fs1 password Hne) as (? & ? & _ & _ & ->).
    destruct (calculate_nonempty fs2 password Hne) as (? & ? & _ & _ & ->).
    do 2 eexists. split; [reflexivity|]. split; [reflexivity|].
    cbn [score]. unfold score_formula. apply clamp_mono.
    assert (dictionary_points
              (find_dictionary_hits password
                 (load_common_words fs2 "common_words.txt"))
            ≤ dictionary_points
                (find_dictionary_hits password
                   (load_common_words fs1 "common_words.txt"))) as Hd;
      [|lia].
    unfold dictionary_points.
    destruct (decide (find_dictionary_hits password
                        (load_common_words fs2 "common_words.txt") = []))
      as [H2 | H2];
      destruct (decide (find_dictionary_hits password
                          (load_common_words fs1 "common_words.txt") = []))
        as [H1 | H1]; try lia.
    exfalso.
    destruct (find_dictionary_hits password
                (load_common_words fs1 "common_words.txt")) as [|w t] eqn:E1;
      [congruence|].
    assert (w ∈ find_dictionary_hits password
                  (load_common_words fs2 "common_words.txt")) as Hw.
    { apply elem_of_find_dictionary_hits.
      assert (w ∈ find_dictionary_hits password
                    (load_common_words fs1 "common_words.txt")) as Hw1
        by (rewrite E1; left).
      apply elem_of_find_dictionary_hits in Hw1 as (Hin & Hrest).
      split; [apply Hsub, Hin | exact Hrest]. }
    rewrite H2 in Hw. inversion Hw.
Qed.

Lemma suggestions_of_nil (hits : list str) (length categories : Z)
    (e : float) (seq rep : bool) :
  suggestions_of hits length categories e seq rep = []
  ↔ hits = [] ∧ 12 ≤ length ∧ 3 ≤ categories ∧ lt_int e 40 = false
    ∧ seq = false ∧ rep = false.
Proof.
  unfold suggestions_of.
  repeat case_decide; destruct (lt_int e 40), seq, rep; cbn [app];
    (split; [intros Heq; try discriminate Heq; repeat split; auto; lia
            | intros (? & ? & ? & ? & ? & ?);
              first [reflexivity | congruence | lia]]).
Qed.

(** X21: the list of suggestions is empty exactly when no check has
    anything to report: no dictionary hit, at least 12 characters, at
    least 3 character classes, an entropy that is not below 40, no
    sequence and no run.  For the empty password it is never empty. *)
Theorem no_suggestions_iff_all_clear (fs : filesystem) (password : str) :
  ∃ r,
    calculate_score_and_suggestions fs password = Some r
    ∧ (suggestions r = [] ↔ all_clear fs password).
Proof.
  unfold all_clear. destruct (decide (password = [])) as [-> | Hne].
  - rewrite calculate_empty. eexists. split; [reflexivity|].
    cbn [suggestions]. split; [discriminate|].
    intros (_ & Hlen & _). unfold len in Hlen. simpl in Hlen. lia.
  - destruct (calculate_nonempty fs password Hne)
      as (seq & rep & Hseq & Hrep & ->).
    eexists. split; [reflexivity|]. cbn [suggestions].
    rewrite suggestions_of_nil, Hseq, Hrep.
    split; intros (? & ? & ? & ? & ? & ?); repeat split; congruence.
Qed.

(** X22: the score is 100 exactly when there is no dictionary hit, the
    password has at least 16 characters and all 4 character classes, its
    entropy is not below 70, and neither detector flags it. *)
Theorem full_score_iff (fs : filesystem) (password : str) :
  ∃ r,
    calculate_score_and_suggestions fs password = Some r
    ∧ (score r = 100
       ↔ find_dictionary_hits password
           (load_common_words fs "common_words.txt") = []
         ∧ 16 ≤ len password
         ∧ class_count password = 4
         ∧ lt_int (estimate_entropy_bits password) 70 = false
         ∧ has_simple_sequence password 4 = Some false
         ∧ has_repeated_run password 4 = Some false).
Proof.
  destruct (decide (password = [])) as [-> | Hne].
  - rewrite calculate_empty. eexists. split; [reflexivity|].
    cbn [score]. split; [discriminate|].
    intros (_ & Hlen & _). unfold len in Hlen. simpl in Hlen. lia.
  - destruct (calculate_nonempty fs password Hne)
      as (seq & rep & Hseq & Hrep & ->).
    eexists. split; [reflexivity|]. cbn [score].
    pose proof (class_count_bounds password) as Hc.
    pose proof (lt_int_mono (estimate_entropy_bits password) 40 70) as Hmono.
    rewrite Hseq, Hrep.
    unfold score_formula, clamp, dictionary_points, length_points,
      entropy_points, detector_points. rewrite Hseq, Hrep.
    destruct (lt_int (estimate_entropy_bits password) 40) eqn:E40;
      destruct (lt_int (estimate_entropy_bits password) 70) eqn:E70;
      try (specialize (Hmono ltac:(lia) eq_refl); discriminate Hmono);
      destruct seq, rep; repeat case_decide;
      (split; [intros Hs; repeat split; first [lia | congruence]
              | intros (? & ? & ? & ? & ? & ?);
                first [lia | congruence]]).
Qed.
Lemma findings_of_penalties (hits : list str) (length categories : Z)
    (e : float) (seq rep : bool) :
  (lit "Contains a simple sequence (e.g., 1234 / abcd)."
     ∈ findings_of hits length categories e seq rep ↔ seq = true)
  ∧ (lit "Contains repeated characters (e.g., aaaa / 1111)."
       ∈ findings_of hits length categories e seq rep ↔ rep = true)
  ∧ ((∃ f, f ∈ findings_of hits length categories e seq rep
           ∧ lit "Contains common word(s): " `prefix_of` f) ↔ hits ≠ []).
Proof.
  unfold findings_of.
  rewrite !elem_of_app, !list_elem_of_singleton.
  setoid_rewrite elem_of_app. setoid_rewrite elem_of_app.
  setoid_rewrite elem_of_app. setoid_rewrite elem_of_app.
  setoid_rewrite elem_of_app. setoid_rewrite list_elem_of_singleton.
  split; [|split].
  - split.
    + intros [Hd | [Hl | [Hv | [He | [Hs | Hr]]]]].
      * case_decide; [inversion Hd|].
        apply list_elem_of_singleton in Hd. differ Hd.
      * repeat case_decide; differ Hl.
      * differ Hv.
      * repeat case_match; differ He.
      * destruct seq; [reflexivity | inversion Hs].
      * destruct rep; [|inversion Hr].
        apply list_elem_of_singleton in Hr. differ Hr.
    + intros ->. do 4 right. left. left.
  - split.
    + intros [Hd | [Hl | [Hv | [He | [Hs | Hr]]]]].
      * case_decide; [inversion Hd|].
        apply list_elem_of_singleton in Hd. differ Hd.
      * repeat case_decide; differ Hl.
      * differ Hv.
      * repeat case_match; differ He.
      * destruct seq; [|inversion Hs].
        apply list_elem_of_singleton in Hs. differ Hs.
      * destruct rep; [reflexivity | inversion Hr].
    + intros ->. do 5 right. left.
  - split.
    + intros (f & [Hd | [Hl | [Hv | [He | [Hs | Hr]]]]] & Hp).
      * case_decide; [inversion Hd | assumption].
      * subst f. repeat case_decide; differ_prefix Hp.
      * subst f. differ_prefix Hp.
      * subst f. repeat case_match; differ_prefix Hp.
      * destruct seq; [|inversion Hs].
        apply list_elem_of_singleton in Hs. subst f. differ_prefix Hp.
      * destruct rep; [|inversion Hr].
        apply list_elem_of_singleton in Hr. subst f. differ_prefix Hp.
    + intros Hne. eexists. split.
      * left. rewrite decide_False by exact Hne. left.
      * eexists. reflexivity.
Qed.

(** X23: what is penalised is what is reported.  The finding of the
    sequence detector, the finding of the run detector and a finding that
    starts with "Contains common word(s): " are in the list exactly when
    the sequence detector, the run detector and the dictionary check find
    something. *)
Theorem findings_report_penalties (fs : filesystem) (password : str) :
  ∃ r,
    calculate_score_and_suggestions fs password = Some r
    ∧ (lit "Contains a simple sequence (e.g., 1234 / abcd)." ∈ findings r
       ↔ has_simple_sequence password 4 = Some true)
    ∧ (lit "Contains repeated characters (e.g., aaaa / 1111)." ∈ findings r
       ↔ has_repeated_run password 4 = Some true)
    ∧ ((∃ f, f ∈ findings r ∧ lit "Contains common word(s): " `prefix_of` f)
       ↔ find_dictionary_hits password
           (load_common_words fs "common_words.txt") ≠ []).
Proof.
  destruct (decide (password = [])) as [-> | Hne].
  - rewrite calculate_empty. eexists. split; [reflexivity|].
    cbn [findings]. rewrite find_dictionary_hits_empty.
    setoid_rewrite list_elem_of_singleton.
    split; [|split].
    + split; [intros H; differ H | rewrite has_simple_sequence_short;
                [discriminate | rewrite lower_nil; unfold len; simpl; lia]].
    + split; [intros H; differ H | discriminate].
    + split; [intros (f & -> & Hp); differ_prefix Hp | congruence].
  - destruct (calculate_nonempty fs password Hne)
      as (seq & rep & Hseq & Hrep & ->).
    eexists. split; [reflexivity|]. cbn [findings]. rewrite Hseq, Hrep.
    destruct (findings_of_penalties
                (find_dictionary_hits password
                   (load_common_words fs "common_words.txt"))
                (len password) (class_count password)
                (estimate_entropy_bits password) seq rep)
      as (H1 & H2 & H3).
    rewrite H1, H2, H3.
    split; [|split]; [| |reflexivity]; split; congruence.
Qed.
End scorer_more.

Section two_evaluations.
Context {U : Unicode} {F : FloatOps}.
Variables I1 I2 : SetIteration.

Lemma word_hits_perm (fs1 fs2 : filesystem) (password : str) :
  load_common_words fs1 "common_words.txt"
  = load_common_words fs2 "common_words.txt" →
  word_hits (I := I1) fs1 password ≡ₚ word_hits (I := I2) fs2 password.
Proof.
  intros Heq. unfold word_hits.
  rewrite !find_dictionary_hits_perm, Heq. reflexivity.
Qed.

Lemma perm_nil_iff (l k : list str) : l ≡ₚ k → l = [] ↔ k = [].
Proof.
  intros Hp. split; intros ->.
  - apply Permutation_nil_r. symmetry. exact Hp.
  - apply Permutation_nil_r. exact Hp.
Qed.

(** C3, amended: the scorer takes the password only, and its dictionary
    check consults the word set that [load_common_words] reads from the
    file [common_words.txt], the empty set when the file is missing.  Two
    evaluations, each with its own order of visiting the set, of equal
    passwords under file systems that hold the same lines in that file, or
    that give the same word set, return equal scores, suggestions and
    entropies; their hits are the same words, and their findings are equal
    entry by entry, but for the dictionary finding of each, which names
    its own first three hits.  When the hits come in the same order the
    results are equal. *)
Theorem result_up_to_set_order (fs1 fs2 : filesystem) (password : str) :
  (fs1 !! "common_words.txt"%string = fs2 !! "common_words.txt"%string →
     load_common_words fs1 "common_words.txt"
     = load_common_words fs2 "common_words.txt")
  ∧ (fs1 !! "common_words.txt"%string = None →
     load_common_words fs1 "common_words.txt" = ∅)
  ∧ (load_common_words fs1 "common_words.txt"
     = load_common_words fs2 "common_words.txt" →
     ∃ r1 r2,
       calculate_score_and_suggestions (I := I1) fs1 password = Some r1
       ∧ calculate_score_and_suggestions (I := I2) fs2 password = Some r2
       ∧ score r1 = score r2
       ∧ suggestions r1 = suggestions r2
       ∧ entropy r1 = entropy r2
       ∧ word_hits (I := I1) fs1 password ≡ₚ word_hits (I := I2) fs2 password
       ∧ Forall2
           (λ f1 f2,
              f1 = f2
              ∨ (f1 = dictionary_finding (word_hits (I := I1) fs1 password)
                 ∧ f2 = dictionary_finding (word_hits (I := I2) fs2 password)))
           (findings r1) (findings r2)
       ∧ (word_hits (I := I1) fs1 password = word_hits (I := I2) fs2 password
          → r1 = r2)).
Proof.
  split; [apply load_common_words_file|].
  split; [apply load_common_words_missing|].
  intros Hload. pose proof (word_hits_perm fs1 fs2 password Hload) as Hperm.
  pose proof (perm_nil_iff _ _ Hperm) as Hnil.
  destruct (decide (password = [])) as [-> | Hne].
  - rewrite !calculate_empty. do 2 eexists.
    split; [reflexivity|]. split; [reflexivity|].
    split; [reflexivity|]. split; [reflexivity|]. split; [reflexivity|].
    split; [exact Hperm|].
    split; [|reflexivity]. cbn [findings]. repeat constructor.
  - destruct (calculate_nonempty (I := I1) fs1 password Hne)
      as (seq & rep & Hseq & Hrep & ->).
    destruct (calculate_nonempty (I := I2) fs2 password Hne)
      as (seq' & rep' & Hseq' & Hrep' & ->).
    assert (seq' = seq) as -> by congruence.
    assert (rep' = rep) as -> by congruence.
    fold (word_hits (I := I1) fs1 password).
    fold (word_hits (I := I2) fs2 password).
    assert (score_formula (I := I1) fs1 password
            = score_formula (I := I2) fs2 password) as Hscore.
    { unfold score_formula.
      fold (word_hits (I := I1) fs1 password).
      fold (word_hits (I := I2) fs2 password).
      unfold dictionary_points.
      rewrite (decide_ext _ _ _ _ Hnil). reflexivity. }
    do 2 eexists. split; [reflexivity|]. split; [reflexivity|].
    cbn [score suggestions entropy findings].
    split; [exact Hscore|].
    split; [unfold suggestions_of; rewrite (decide_ext _ _ _ _ Hnil);
            reflexivity|].
    split; [reflexivity|]. split; [exact Hperm|]. split.
    + unfold findings_of. apply Forall2_app.
      * rewrite (decide_ext _ _ _ _ Hnil).
        case_decide; constructor; [|constructor].
        right. split; reflexivity.
      * apply Forall_Forall2_diag, Forall_true. intros f. left. reflexivity.
    + intros Hhits. rewrite Hscore, Hhits. reflexivity.
Qed.
End two_evaluations.

Section printing.
Context {U : Unicode} {F : FloatOps} {I : SetIteration}.

Lemma findings_of_not_looks_good (hits : list str) (length categories : Z)
    (e : float) (seq rep : bool) (f : str) :
  f ∈ findings_of hits length categories e seq rep →
  lit "- " ++ f ≠ lit "- Looks good. Keep using unique passwords per site.".
Proof.
  unfold findings_of. rewrite !elem_of_app, !list_elem_of_singleton.
  intros [Hd | [Hl | [Hv | [He | [Hs | Hr]]]]] Heq.
  - case_decide; [inversion Hd|].
    apply list_elem_of_singleton in Hd. subst f. differ Heq.
  - subst f. repeat case_decide; differ Heq.
  - subst f. differ Heq.
  - subst f. repeat case_match; differ Heq.
  - destruct seq; [|inversion Hs].
    apply list_elem_of_singleton in Hs. subst f. differ Heq.
  - destruct rep; [|inversion Hr].
    apply list_elem_of_singleton in Hr. subst f. differ Heq.
Qed.

Lemma suggestions_of_not_looks_good (hits : list str) (length categories : Z)
    (e : float) (seq rep : bool) (s : str) :
  s ∈ suggestions_of hits length categories e seq rep →
  lit "- " ++ s ≠ lit "- Looks good. Keep using unique passwords per site.".
Proof.
  unfold suggestions_of. rewrite !elem_of_app.
  intros [Hd | [Hl | [Hv | [He | [Hs | Hr]]]]] Heq.
  - case_decide; [inversion Hd|].
    apply list_elem_of_singleton in Hd. subst s. differ Heq.
  - repeat case_decide; try (inversion Hl; fail);
      apply list_elem_of_singleton in Hl; subst s; differ Heq.
  - case_decide; [|inversion Hv].
    apply list_elem_of_singleton in Hv. subst s. differ Heq.
  - case_match; [|inversion He].
    apply list_elem_of_singleton in He. subst s. differ Heq.
  - destruct seq; [|inversion Hs].
    apply list_elem_of_singleton in Hs. subst s. differ Heq.
  - destruct rep; [|inversion Hr].
    apply list_elem_of_singleton in Hr. subst s. differ Heq.
Qed.

(** The findings and suggestions of every result: none of them, as a
    bullet line, is the line that reports that all is well. *)
Lemma result_lines_not_looks_good (fs : filesystem) (password : str) :
  ∃ r,
    calculate_score_and_suggestions fs password = Some r
    ∧ (suggestions r = [] ↔ all_clear fs password)
    ∧ (∀ x, x ∈ findings r ∨ x ∈ suggestions r →
            lit "- " ++ x
            ≠ lit "- Looks good. Keep using unique passwords per site.").
Proof.
  unfold all_clear. destruct (decide (password = [])) as [-> | Hne].
  - rewrite calculate_empty. eexists. split; [reflexivity|].
    cbn [findings suggestions]. split.
    + split; [discriminate|].
      intros (_ & Hlen & _). unfold len in Hlen. simpl in Hlen. lia.
    + intros x [Hx | Hx] Heq; apply list_elem_of_singleton in Hx; subst x;
        differ Heq.
  - destruct (calculate_nonempty fs password Hne)
      as (seq & rep & Hseq & Hrep & ->).
    eexists. split; [reflexivity|]. cbn [findings suggestions]. split.
    + rewrite suggestions_of_nil, Hseq, Hrep.
      split; intros (? & ? & ? & ? & ? & ?); repeat split; congruence.
    + intros x [Hx | Hx].
      * exact (findings_of_not_looks_good _ _ _ _ _ _ _ Hx).
      * exact (suggestions_of_not_looks_good _ _ _ _ _ _ _ Hx).
Qed.

(** X24: [analyze_and_print] returns for every password, and it prints
    the line "- Looks good. Keep using unique passwords per site." exactly
    when no check has anything to report; no finding and no suggestion is
    printed as that line. *)
Theorem analyze_and_print_looks_good (fs : filesystem) (password : str) :
  ∃ out,
    analyze_and_print fs password = Some out
    ∧ (Stdout (lit "- Looks good. Keep using unique passwords per site.")
         ∈ out
       ↔ all_clear fs password).
Proof.
  destruct (result_lines_not_looks_good fs password)
    as ([sc fi su en] & Hr & Hclear & Hlines).
  unfold analyze_and_print. rewrite Hr. cbn [mbind option_bind].
  eexists. split; [reflexivity|].
  cbn [suggestions findings] in Hclear, Hlines. rewrite <- Hclear.
  rewrite !elem_of_app, !elem_of_cons, elem_of_nil, list_elem_of_fmap.
  split.
  - intros [Hh | [Hf | [Hs | Hl]]].
    + destruct Hh as [H | [H | [H | [H | [H | [H | []]]]]]];
        apply (f_equal event_text) in H; cbn [event_text] in H; differ H.
    + destruct Hf as (f & Heq & Hin).
      apply (f_equal event_text) in Heq. cbn [event_text] in Heq.
      symmetry in Heq. destruct (Hlines f (or_introl Hin) Heq).
    + destruct Hs as [H | []].
      apply (f_equal event_text) in H. cbn [event_text] in H. differ H.
    + destruct su as [|s su]; [reflexivity|].
      apply list_elem_of_fmap in Hl as (x & Heq & Hin).
      apply (f_equal event_text) in Heq. cbn [event_text] in Heq.
      symmetry in Heq. destruct (Hlines x (or_intror Hin) Heq).
  - intros ->. do 3 right. left.
Qed.
End printing.

Section command_line.
Context {F : FloatOps}.
Variable calculate : str → option scoring.
Variable label : Z → str.
Variable dumps : Cli.payload → str.
Variable round2 : float → float.

Abbreviation cli_main := (Cli.main calculate label dumps round2).

Lemma main_scored_stdout (args : Cli.namespace) (password : str)
    (events : list event) (code : Z) :
  Cli.main_scored calculate label dumps round2 args password
  = Some (events, code) →
  code = 0 ∧ Forall (λ ev, ∃ line, ev = Stdout line) events.
Proof.
  unfold Cli.main_scored.
  destruct (calculate password) as [[sc fi su en]|]; [|discriminate].
  cbn [mbind option_bind].
  destruct (Cli.score_only args); [|destruct (Cli.json args)];
    intros [= <- <-]; (split; [reflexivity|]).
  - repeat constructor. eexists; reflexivity.
  - repeat constructor. eexists; reflexivity.
  - destruct su;
      repeat first
        [ apply Forall_nil_2
        | apply Forall_cons_2; [eexists; reflexivity|]
        | apply Forall_app_2
        | (apply Forall_fmap, Forall_true; intros ?; eexists; reflexivity) ].
Qed.


(** X26: [main] asks for the password exactly when [--password] is absent
    and [--no-input] is not set; it then asks once, before it writes
    anything.  A password given on the command line is never asked for
    again. *)
Theorem cli_prompt (args : Cli.namespace) (typed : str)
    (events : list event) (code : Z) :
  cli_main args typed = Some (events, code) →
  ((∃ prompt, Getpass prompt ∈ events)
   ↔ Cli.password args = None ∧ Cli.no_input args = false)
  ∧ (∀ prompt, Getpass prompt ∈ events →
       prompt = lit "Enter password: "
       ∧ ∃ rest, events = Getpass prompt :: rest
                 ∧ ∀ prompt', Getpass prompt' ∉ rest).
Proof.
  assert (∀ args pw ev c prompt,
            Cli.main_scored calculate label dumps round2 args pw
            = Some (ev, c) → Getpass prompt ∉ ev) as Hnone.
  { intros a pw ev c prompt Hm Hin.
    apply main_scored_stdout in Hm as [_ Hall].
    rewrite Forall_forall in Hall. destruct (Hall _ Hin) as [? ?].
    discriminate. }
  unfold Cli.main. destruct (Cli.password args) as [pw|] eqn:Hp.
  - intros Hm. split.
    + split; [intros [prompt Hin]; destruct (Hnone _ _ _ _ _ Hm Hin)|].
      intros [? _]; discriminate.
    + intros prompt Hin. destruct (Hnone _ _ _ _ _ Hm Hin).
  - destruct (Cli.no_input args) eqn:Hn.
    + intros [= <- <-]. split.
      * split; [intros [prompt Hin] | intros [_ ?]; discriminate].
        apply list_elem_of_singleton in Hin. discriminate.
      * intros prompt Hin. apply list_elem_of_singleton in Hin. discriminate.
    + destruct (Cli.main_scored _ _ _ _ args typed) as [[ev c]|] eqn:Hm;
        [|discriminate].
      cbn [mbind option_bind]. intros [= <- <-]. split.
      * split; [auto|]. intros _. eexists. left.
      * intros prompt Hin.
        apply elem_of_cons in Hin as [Hin | Hin];
          [|destruct (Hnone _ _ _ _ _ Hm Hin)].
        injection Hin as ->. split; [reflexivity|].
        eexists. split; [reflexivity|].
        intros prompt'. exact (Hnone _ _ _ _ _ Hm).
Qed.

(** X27: with [--score-only] the standard output is one line, the score in
    decimal, whether or not [--json] is given too; the password is the one
    of [--password] or, without it, the one that is typed. *)
Theorem cli_score_only (args : Cli.namespace) (typed : str) (r : scoring) :
  Cli.score_only args = true →
  (∀ password,
     Cli.password args = Some password →
     calculate password = Some r →
     cli_main args typed = Some ([Stdout (str_of_int (score r))], 0))
  ∧ (Cli.password args = None → Cli.no_input args = false →
     calculate typed = Some r →
     cli_main args typed
     = Some ([Getpass (lit "Enter password: ");
              Stdout (str_of_int (score r))], 0)).
Proof.
  intros Hs. split.
  - intros pw Hp Hc. unfold Cli.main, Cli.main_scored.
    rewrite Hp, Hc, Hs. destruct r. reflexivity.
  - intros Hp Hn Hc. unfold Cli.main, Cli.main_scored.
    rewrite Hp, Hn, Hc, Hs. destruct r. reflexivity.
Qed.
End command_line.

Section command_line_text.
Context {U : Unicode} {F : FloatOps} {I : SetIteration}.
Variable dumps : Cli.payload → str.
Variable round2 : float → float.

End command_line_text.

(** ** The further properties on concrete inputs *)

Section concrete_more.
#[local] Existing Instance Reference.exact_floats.
#[local] Existing Instance Reference.elements_order.

Import Reference.

(** A proposition that a decision procedure evaluates to true. *)
Ltac by_evaluation := apply (bool_decide_unpack _); vm_compute; constructor.

Section ascii.
#[local] Existing Instance Reference.ascii_tables.

(** X1 at a line with white space and capitals around the word. *)
Lemma load_common_words_trimmed_witness :
  lit "password"
    ∈ load_common_words (word_file ["  PassWord  "]) "common_words.txt"
  ∧ ∃ t c1 cn,
      lit "password" = lower t ∧ head t = Some c1 ∧ last t = Some cn
      ∧ isspace c1 = false ∧ c1 ≠ 35 ∧ isspace cn = false.
Proof.
  assert (lit "password"
            ∈ load_common_words (word_file ["  PassWord  "])
                "common_words.txt") as Hin by by_evaluation.
  split; [exact Hin|].
  exact (load_common_words_trimmed _ _ _ Hin).
Defined.

(** X3 at a file of a comment, a blank line and an empty line. *)
Lemma blank_word_file_as_missing_witness :
  calculate (word_file ["  # password"; "   "; ""]) "password1"
  = calculate
      (delete "common_words.txt"%string
         (word_file ["  # password"; "   "; ""])) "password1".
Proof.
  apply (blank_word_file_as_missing _
           ((λ w, lit w ++ [10]) <$> ["  # password"; "   "; ""]%string)).
  - apply lookup_singleton_eq.
  - by_evaluation.
Defined.

(** X6 at five words that all occur in the password: "word" is left out of
    the finding, and is not longer than "pass", which is named. *)
Lemma find_dictionary_hits_top3_witness :
  take 3 (find_dictionary_hits (lit "Password")
            (list_to_set [lit "pass"; lit "word"; lit "sswo";
                          lit "password"; lit "assw"]))
  = [lit "password"; lit "assw"; lit "pass"]
  ∧ len (lit "word") ≤ len (lit "pass").
Proof.
  split; [vm_compute; reflexivity|].
  apply (find_dictionary_hits_top3 (lit "Password")
           (list_to_set [lit "pass"; lit "word"; lit "sswo";
                         lit "password"; lit "assw"])).
  - by_evaluation.
  - by_evaluation.
  - vm_compute. discriminate.
  - apply contains_substring. vm_compute. reflexivity.
  - by_evaluation.
Defined.

(** X7 at a password and the same characters in reverse order. *)
Lemma estimate_entropy_bits_perm_witness :
  estimate_entropy_bits (lit "Ab1!")
  = estimate_entropy_bits (reverse (lit "Ab1!")).
Proof.
  apply estimate_entropy_bits_perm. symmetry. apply reverse_Permutation.
Defined.

(** X11 at a sequence of six characters. *)
Lemma has_simple_sequence_shorter_witness :
  has_simple_sequence (lit "xabcdefy") 6 = Some true
  ∧ has_simple_sequence (lit "xabcdefy") 4 = Some true.
Proof.
  assert (has_simple_sequence (lit "xabcdefy") 6 = Some true) as H6
    by (vm_compute; reflexivity).
  split; [exact H6|].
  apply (has_simple_sequence_shorter _ 6 4); [lia | exact H6].
Defined.

(** X14 at a password that the ASCII lowercase table, a function of
    single characters, turns into a run, and at the successor function,
    which is injective. *)
Lemma has_repeated_run_relabel_witness :
  has_repeated_run (lit "aAaA") 4 = Some false
  ∧ has_repeated_run (ascii_lower <$> lit "aAaA") 4 = Some true
  ∧ has_repeated_run (Z.succ <$> lit "x1111y") 4
    = has_repeated_run (lit "x1111y") 4.
Proof.
  split; [vm_compute; reflexivity|]. split; [vm_compute; reflexivity|].
  apply (has_repeated_run_relabel Z.succ). intros x y. lia.
Defined.

(** X20 at a word list and the same list with one more word. *)
Lemma more_words_lower_score_witness :
  ∃ r1 r2,
    calculate (word_file ["admin"]) "password1" = Some r1
    ∧ calculate (word_file ["admin"; "password"]) "password1" = Some r2
    ∧ score r2 ≤ score r1.
Proof.
  apply (more_words_lower_score (word_file ["admin"])
           (word_file ["admin"; "password"])).
  by_evaluation.
Defined.

(** The command line on this runtime: the scorer on the empty file
    system, a JSON encoder that is left open. *)
Definition cli (args : Cli.namespace) (typed : str) :=
  Cli.main (calculate_score_and_suggestions ∅) strength_label
    (λ _, lit "{}") id args typed.

(** C3 as stated fails.  The same password gets two scores under two
    contents of the file system; and under one word file it gets two lists
    of findings in two evaluations that visit the set of words in two
    orders. *)
Lemma result_depends_on_file_and_set_order :
  (score <$> calculate ∅ "password1" = Some 50
   ∧ score <$> calculate (word_file ["password"]) "password1" = Some 25)
  ∧ (head <$> (findings
                 <$> calculate_score_and_suggestions (I := elements_order)
                       (word_file ["pass"; "word"]) (lit "password"))
     = Some (Some (lit "Contains common word(s): pass, word."))
     ∧ head <$> (findings
                   <$> calculate_score_and_suggestions (I := Reversed.order)
                         (word_file ["pass"; "word"]) (lit "password"))
       = Some (Some (lit "Contains common word(s): word, pass."))).
Proof. repeat split; vm_compute; reflexivity. Qed.

(** C3, amended, at the two evaluations above and at a file system with
    one more file: the scores, the suggestions and the entropies are
    equal. *)
Lemma result_up_to_set_order_witness :
  ∃ r1 r2,
    calculate_score_and_suggestions (I := elements_order)
      (word_file ["pass"; "word"]) (lit "password") = Some r1
    ∧ calculate_score_and_suggestions (I := Reversed.order)
        (<["notes.txt"%string := [lit "password"]]>
           (word_file ["pass"; "word"])) (lit "password") = Some r2
    ∧ score r1 = score r2
    ∧ suggestions r1 = suggestions r2
    ∧ entropy r1 = entropy r2
    ∧ Forall2
        (λ f1 f2,
           f1 = f2
           ∨ (f1 = lit "Contains common word(s): pass, word."
              ∧ f2 = lit "Contains common word(s): word, pass."))
        (findings r1) (findings r2).
Proof.
  destruct (result_up_to_set_order elements_order Reversed.order
              (word_file ["pass"; "word"])
              (<["notes.txt"%string := [lit "password"]]>
                 (word_file ["pass"; "word"])) (lit "password"))
    as (Hfile & _ & Hresult).
  destruct (Hresult (Hfile ltac:(vm_compute; reflexivity)))
    as (r1 & r2 & H1 & H2 & Hs & Hg & He & _ & Hf & _).
  exists r1, r2. repeat (split; [assumption|]).
  eapply Forall2_impl; [exact Hf|]. cbv beta.
  intros f1 f2 [Heq | [-> ->]]; [left; exact Heq | right].
  split; vm_compute; reflexivity.
Defined.

(** X26 at a run without [--password]. *)
Lemma cli_prompt_witness :
  cli (Cli.Namespace None false true false) (lit "Abcd1234!!")
  = Some ([Getpass (lit "Enter password: "); Stdout (lit "55")], 0)
  ∧ ((∃ prompt,
        Getpass prompt
          ∈ [Getpass (lit "Enter password: "); Stdout (lit "55")])
     ↔ Cli.password (Cli.Namespace None false true false) = None
       ∧ Cli.no_input (Cli.Namespace None false true false) = false).
Proof.
  assert (cli (Cli.Namespace None false true false) (lit "Abcd1234!!")
          = Some ([Getpass (lit "Enter password: "); Stdout (lit "55")], 0))
    as Hrun by (vm_compute; reflexivity).
  split; [exact Hrun|].
  exact (proj1 (cli_prompt _ _ _ _ _ _ _ _ Hrun)).
Defined.

(** X27 at a run with [--password], [--score-only] and [--json]. *)
Lemma cli_score_only_witness :
  cli (Cli.Namespace (Some (lit "Abcd1234!!")) true true false) []
  = Some ([Stdout (lit "55")], 0).
Proof.
  destruct (calculate_score_and_suggestions ∅ (lit "Abcd1234!!"))
    as [r|] eqn:Hr; [|vm_compute in Hr; discriminate].
  assert (score r = 55) as Hs
    by (vm_compute in Hr; injection Hr as <-; reflexivity).
  unfold cli.
  rewrite (proj1 (cli_score_only _ strength_label (λ _, lit "{}") id
                    (Cli.Namespace (Some (lit "Abcd1234!!")) true true false)
                    [] r eq_refl) _ eq_refl Hr).
  rewrite Hs. reflexivity.
Defined.
End ascii.

(** X12 and X13: runs of the character "1". *)
Lemma has_repeated_run_shorter_witness :
  has_repeated_run (lit "x11111") 5 = Some true
  ∧ has_repeated_run (lit "x11111") 3 = Some true.
Proof.
  assert (has_repeated_run (lit "x11111") 5 = Some true) as H5
    by (vm_compute; reflexivity).
  split; [exact H5|].
  apply (has_repeated_run_shorter _ 5 3); [lia | exact H5].
Defined.

Lemma has_repeated_run_extend_witness :
  has_repeated_run (lit "1111") 4 = Some true
  ∧ has_repeated_run (lit "Ab" ++ lit "1111" ++ lit "!?") 4 = Some true.
Proof.
  assert (has_repeated_run (lit "1111") 4 = Some true) as H4
    by (vm_compute; reflexivity).
  split; [exact H4|]. apply has_repeated_run_extend, H4.
Defined.

(** X9 at a password of four ideographs, with the tables that know them:
    the estimate is 0.0 and no class is counted, and the score is 5 for
    the length alone. *)
Lemma estimate_entropy_bits_caseless_witness :
  estimate_entropy_bits (U := Ideographs.tables) [20013; 25991; 23494; 30721]
  = float_zero
  ∧ class_count (U := Ideographs.tables) [20013; 25991; 23494; 30721] = 0
  ∧ score <$> calculate_score_and_suggestions (U := Ideographs.tables) ∅
                [20013; 25991; 23494; 30721]
    = Some 5.
Proof.
  destruct (estimate_entropy_bits_caseless (U := Ideographs.tables)
              [20013; 25991; 23494; 30721]) as [He Hc].
  - by_evaluation.
  - split; [exact He|]. split; [exact Hc|]. vm_compute. reflexivity.
Defined.
End concrete_more.
